(** * concurrency_limit: the slot protocol of [limit] and the reaper [limit_clean]

    A shallow embedding of [src/concurrency_limit/context_managers.py].

    - The Redis server is a [store]: a map from keys to hashes
      (field -> value, both byte strings) together with the time-to-live
      last set on each key.  [hlen], [hset], [expire] and [hdel] are the
      four client calls the module makes; a pipeline is a list of commands
      executed in one atomic batch.
    - The generator behind the [limit] context manager is a machine whose
      program points are the lines at which it touches the store, suspends
      or reads a clock; [limit_step] runs it from one such point to the next.
    - Several callers, reaper deletions and key expiry are interleaved by a
      schedule ([exec]).
    - [limit_clean] is a fold of its loop body over the scanned entries. *)

From Stdlib Require Import ZArith Lia DecimalString DecimalZ DecimalPos PrimFloat.
From stdpp Require Import gmap strings list fin_maps.

Set Warnings "-clear-no-such-hyp".

Open Scope Z_scope.

(** ** The shared store *)

Module Redis.

(** [hashes]: the hash stored under each key.  [ttls]: the number of seconds
    given to the last EXPIRE of a key that still exists. *)
Record store := Store {
  hashes : gmap string (gmap string string);
  ttls : gmap string Z
}.

Definition empty : store := Store ∅ ∅.

(** A key that does not exist reads as the empty hash. *)
Definition hgetall (k : string) (s : store) : gmap string string :=
  default ∅ (hashes s !! k).

Definition hget (k f : string) (s : store) : option string :=
  hgetall k s !! f.

(** HLEN: number of fields of the hash at [k]. *)
Definition hlen (k : string) (s : store) : Z :=
  Z.of_nat (size (hgetall k s)).

(** HSET: writes one field; replies with the number of fields created. *)
Definition hset (k f v : string) (s : store) : store * Z :=
  (Store (<[k := <[f := v]> (hgetall k s)]> (hashes s)) (ttls s),
   match hget k f s with Some _ => 0 | None => 1 end).

(** DEL, and what the server does itself when a time-to-live runs out. *)
Definition del_key (k : string) (s : store) : store :=
  Store (delete k (hashes s)) (delete k (ttls s)).

(** EXPIRE: sets the time-to-live of an existing key; a time-to-live that is
    not positive deletes the key at once. *)
Definition expire (k : string) (secs : Z) (s : store) : store * Z :=
  match hashes s !! k with
  | None => (s, 0)
  | Some _ =>
      if secs <=? 0 then (del_key k s, 1)
      else (Store (hashes s) (<[k := secs]> (ttls s)), 1)
  end.

(** HDEL: removes one field and replies with the number of fields removed;
    a hash left without fields is removed with its key. *)
Definition hdel (k f : string) (s : store) : store * Z :=
  match hget k f s with
  | None => (s, 0)
  | Some _ =>
      let h := delete f (hgetall k s) in
      (if decide (h = ∅) then del_key k s
       else Store (<[k := h]> (hashes s)) (ttls s), 1)
  end.

(** HSCAN over an idle hash: every entry once. *)
Definition hscan (k : string) (s : store) : list (string * string) :=
  map_to_list (hgetall k s).

Inductive cmd :=
| HLEN (k : string)
| HSET (k f v : string)
| EXPIRE (k : string) (secs : Z)
| HDEL (k f : string).

Definition exec_cmd (c : cmd) (s : store) : store * Z :=
  match c with
  | HLEN k => (s, hlen k s)
  | HSET k f v => hset k f v s
  | EXPIRE k secs => expire k secs s
  | HDEL k f => hdel k f s
  end.

(** [pipeline().….execute()]: the commands run in order, as one batch
    (the client wraps the batch in MULTI/EXEC), and the replies come back in
    the same order. *)
Fixpoint execute (cs : list cmd) (s : store) : store * list Z :=
  match cs with
  | [] => (s, [])
  | c :: cs' =>
      let '(s1, r) := exec_cmd c s in
      let '(s2, rs) := execute cs' s1 in
      (s2, r :: rs)
  end.

(** Commands that change the store. *)
Definition is_write (c : cmd) : bool :=
  match c with
  | HLEN _ => false
  | HSET _ _ _ | EXPIRE _ _ | HDEL _ _ => true
  end.

(** The field a command inserts or deletes. *)
Definition cmd_field (c : cmd) : option string :=
  match c with
  | HSET _ f _ | HDEL _ f => Some f
  | HLEN _ | EXPIRE _ _ => None
  end.

End Redis.
Import Redis.

#[global] Arguments hgetall : simpl never.
#[global] Arguments hlen : simpl never.
#[global] Arguments hset : simpl never.
#[global] Arguments expire : simpl never.
#[global] Arguments hdel : simpl never.
#[global] Arguments del_key : simpl never.

(** ** Configuration and errors *)

(** Modelled from the spec: [LimitConfiguration] is declared in
    [configuration.py], which is not among the sources; the fields are the
    five that [limit] reads (lines 50-54), with the types the spec gives them:
    an integer limit, an integer number of seconds for the slot expiry, and
    durations for the wait timeout and the retry interval.  A duration is a
    double, as the clock readings it is compared with are; a duration given
    as an integer is the double of that value. *)
Record LimitConfiguration := {
  key : string;
  limit : Z;
  limit_timeout : float;
  limit_expire : Z;
  limit_interval : float
}.

(** Modelled from the spec: [ConcurrencyLimitExceededException] is declared in
    [exceptions.py], which is not among the sources; it is built at lines
    91-93 from the configured limit and timeout.  [BlockError] stands for
    any other exception object a scoped block can raise. *)
Inductive public_exn :=
| ConcurrencyLimitExceededException (lim : Z) (timeout : float)
| BlockError (name : string).

(** [_LockAcquireException] (line 43) is a class local to one call of
    [limit]: the generator raises it at lines 65 and 79, and no scoped block
    can name it. *)
Inductive exn :=
| LockAcquireException
| Public (e : public_exn).

(** [except _LockAcquireException:] (line 85). *)
Definition except_LockAcquire (e : exn) : bool :=
  match e with
  | LockAcquireException => true
  | Public _ => false
  end.

(** How the context manager is left. *)
Inductive exit :=
| Completed
| Raised (e : exn).

(** What the scoped block of the [with] statement does once it has control. *)
Inductive block_result :=
| Returns
| Raises (e : public_exn).

(** What a step can ask of its surroundings: [time.monotonic()] (a double),
    [int(time.time())], and the outcome of the scoped block. *)
Record env := {
  mono : float;
  wall : Z;
  block : block_result
}.

(** ** The generator of [limit] *)

(** [str] of an integer, as the client encodes an integer hash value. *)
Definition py_str (z : Z) : string := NilZero.string_of_int (Z.to_int z).

Inductive pc :=
| AtHlen              (* line 63: about to read the length *)
| AtPipeline          (* lines 69-75: pre-check passed, about to write *)
| AtRollback          (* line 78: post-check failed, about to delete *)
| AtYield (count : Z) (* line 82: suspended, the scoped block runs *)
| AtHandler           (* line 86: in the handler, about to read the clock *)
| AtSleep             (* line 97: sleeping for the retry interval *)
| AtFinally (x : exit) (* line 100: about to delete, then leave with [x] *)
| Exited (x : exit).  (* the generator is finished *)

(** The local variables of one call. *)
Record proc := Proc {
  p_cfg : LimitConfiguration;
  p_start : float;
  p_id : string;
  p_pc : pc
}.

Definition set_pc (p : proc) (l : pc) : proc :=
  Proc (p_cfg p) (p_start p) (p_id p) l.

(** Lines 46-55: [start] is read from the monotonic clock and [lock_id] is
    drawn once, before the loop is entered. *)
Definition limit_start (cfg : LimitConfiguration) (now : float) (uuid4 : string) : proc :=
  Proc cfg now uuid4 AtHlen.

(** Line 86: [time.monotonic() - start], a subtraction of doubles, rounded
    as the machine rounds it. *)
Definition elapsed (i : env) (p : proc) : float :=
  PrimFloat.sub (mono i) (p_start p).

(** Line 90: [elapsed > lock_timeout]. *)
Definition timed_out (i : env) (p : proc) : bool :=
  PrimFloat.ltb (limit_timeout (p_cfg p)) (elapsed i p).

(** An exception raised inside the inner [try] (lines 60-83): the handler of
    line 85 takes it if it is the private one, otherwise it leaves the loop
    through the [finally] of line 99. *)
Definition raise_in_try (e : exn) : pc :=
  if except_LockAcquire e then AtHandler else AtFinally (Raised e).

(** One step of the generator: from a program point to the next, with the
    store before, the store after, and the commands sent in between. *)
Definition limit_step (i : env) (s : store) (p : proc) : proc * store * list cmd :=
  let lock_limit := limit (p_cfg p) in
  let lock_key := key (p_cfg p) in
  let lock_expire := limit_expire (p_cfg p) in
  let lock_timeout := limit_timeout (p_cfg p) in
  let lock_id := p_id p in
  match p_pc p with
  | AtHlen =>
      (* lines 63-65 *)
      let '(s', count) := exec_cmd (HLEN lock_key) s in
      if count >=? lock_limit
      then (set_pc p (raise_in_try LockAcquireException), s', [HLEN lock_key])
      else (set_pc p AtPipeline, s', [HLEN lock_key])
  | AtPipeline =>
      (* lines 69-82 *)
      let cs := [HSET lock_key lock_id (py_str (wall i + lock_expire));
                 EXPIRE lock_key lock_expire;
                 HLEN lock_key] in
      let '(s', rs) := execute cs s in
      let count := default 0 (last rs) in
      if count >? lock_limit
      then (set_pc p AtRollback, s', cs)
      else (set_pc p (AtYield count), s', cs)
  | AtRollback =>
      (* lines 78-79 *)
      let '(s', _) := exec_cmd (HDEL lock_key lock_id) s in
      (set_pc p (raise_in_try LockAcquireException), s', [HDEL lock_key lock_id])
  | AtYield _ =>
      (* line 82 resumed: [break] at line 83, or the block's exception *)
      match block i with
      | Returns => (set_pc p (AtFinally Completed), s, [])
      | Raises e => (set_pc p (raise_in_try (Public e)), s, [])
      end
  | AtHandler =>
      (* lines 86-93 *)
      if timed_out i p
      then (set_pc p (AtFinally (Raised (Public
              (ConcurrencyLimitExceededException lock_limit lock_timeout)))), s, [])
      else (set_pc p AtSleep, s, [])
  | AtSleep =>
      (* line 97, [time.sleep(lock_interval)], then the loop again *)
      (set_pc p AtHlen, s, [])
  | AtFinally x =>
      (* line 100 *)
      let '(s', _) := exec_cmd (HDEL lock_key lock_id) s in
      (set_pc p (Exited x), s', [HDEL lock_key lock_id])
  | Exited x => (p, s, [])
  end.

(** ** Interleaved executions *)

Record gstate := GState {
  g_store : store;
  g_procs : list proc;
  g_trace : list (nat * cmd)
}.

(** [Step pid i]: caller [pid] takes its next step.  [Reap k f]: a running
    [limit_clean] (line 126), or any other party, deletes field [f] of [k].
    [Expired k]: the time-to-live of [k] has run out. *)
Inductive action :=
| Step (pid : nat) (i : env)
| Reap (k f : string)
| Expired (k : string).

Definition exec_action (g : gstate) (a : action) : gstate :=
  match a with
  | Step pid i =>
      match g_procs g !! pid with
      | None => g
      | Some p =>
          let '(p', s', cs) := limit_step i (g_store g) p in
          GState s' (<[pid := p']> (g_procs g)) (g_trace g ++ map (pair pid) cs)
      end
  | Reap k f =>
      GState (hdel k f (g_store g)).1 (g_procs g) (g_trace g)
  | Expired k =>
      match ttls (g_store g) !! k with
      | None => g
      | Some _ => GState (del_key k (g_store g)) (g_procs g) (g_trace g)
      end
  end.

Definition exec (sched : list action) (g : gstate) : gstate :=
  fold_left exec_action sched g.

(** All callers have run lines 46-55 and none has touched the store yet. *)
Definition init (s : store) (calls : list (LimitConfiguration * float * string)) : gstate :=
  GState s (map (fun c => limit_start c.1.1 c.1.2 c.2) calls) [].

(** Callers that have inserted, were counted out, and have not yet deleted. *)
Definition in_rollback (k : string) (p : proc) : bool :=
  bool_decide (key (p_cfg p) = k) &&
  match p_pc p with AtRollback => true | _ => false end.

(** The slot ids of the callers in that window. *)
Definition rollback_ids (k : string) (ps : list proc) : gset string :=
  list_to_set (p_id <$> filter (λ p, in_rollback k p = true) ps).

(** The entries that do not belong to a caller between its insert and its
    rollback are at most [L], and every caller on [k] runs with limit [L]. *)
Definition settled (k : string) (L : Z) (g : gstate) : Prop :=
  Z.of_nat (size (dom (hgetall k (g_store g)) ∖ rollback_ids k (g_procs g))) <= L ∧
  Forall (λ p, key (p_cfg p) = k → limit (p_cfg p) = L) (g_procs g).

(** A caller suspended at the yield carries a count between 1 and its limit. *)
Definition yields_within_limit (p : proc) : Prop :=
  0 < limit_expire (p_cfg p) ∧
  ∀ c, p_pc p = AtYield c → 1 <= c <= limit (p_cfg p).

(** The slot ids of the callers never change, and every field a caller
    inserts or deletes is its own slot id. *)
Definition uses_own_id (ids : list string) (g : gstate) : Prop :=
  p_id <$> g_procs g = ids ∧
  ∀ pid c f, (pid, c) ∈ g_trace g → cmd_field c = Some f → ids !! pid = Some f.

(** The fields a caller has written with HSET, one per attempt that reached
    the pipeline, in order. *)
Definition attempt_ids (pid : nat) (tr : list (nat * cmd)) : list string :=
  omap (fun e => match e.2 with
                 | HSET _ f _ => if decide (e.1 = pid) then Some f else None
                 | _ => None
                 end) tr.

(** ** The reaper *)

Section Reaper.

(** The builtin [int] applied to a hash value: [None] where it raises
    [ValueError] or [TypeError]. *)
Variable py_int : string -> option Z.

(** Lines 120-123. *)
Definition clean_lock (current : Z) (scan_lock_expire : string) : bool :=
  match py_int scan_lock_expire with
  | Some e => current >=? e
  | None => true
  end.

(** Lines 120-126: the body of the loop, on the store and the running count. *)
Definition clean_body (lock_key : string) (current : Z)
    (acc : store * Z) (entry : string * string) : store * Z :=
  if clean_lock current entry.2
  then let '(s', n) := hdel lock_key entry.1 acc.1 in (s', acc.2 + n)
  else acc.

(** Lines 115-128 over the entries the scan yields. *)
Definition limit_clean_scan (lock_key : string) (current : Z)
    (scan : list (string * string)) (s : store) : store * Z :=
  fold_left (clean_body lock_key current) scan (s, 0).

(** [limit_clean] with nothing else touching the store meanwhile. *)
Definition limit_clean (cfg : LimitConfiguration) (now : Z) (s : store) : store * Z :=
  limit_clean_scan (key cfg) now (hscan (key cfg) s) s.

End Reaper.

(** A reader of decimal integers, an instance of [py_int] on the values the
    examples use. *)
Definition dec_int (s : string) : option Z :=
  option_map Z.of_int (NilZero.int_of_string s).

(** The key a command addresses. *)
Definition cmd_key (c : cmd) : string :=
  match c with
  | HLEN k | HSET k _ _ | EXPIRE k _ | HDEL k _ => k
  end.

(** ** One caller on its own *)

(** Consecutive steps of one caller while nobody else touches the store;
    the commands of the steps are collected in order. *)
Fixpoint limit_run (envs : list env) (s : store) (p : proc) :
    proc * store * list cmd :=
  match envs with
  | [] => (p, s, [])
  | i :: envs' =>
      let '(p1, s1, cs1) := limit_step i s p in
      let '(p2, s2, cs2) := limit_run envs' s1 p1 in
      (p2, s2, cs1 ++ cs2)
  end.

(** Callers that may have an entry in the record of [k]: after the batch of
    lines 69-75 and before the delete of line 78 or line 100 has run. *)
Definition holds_slot (k : string) (p : proc) : bool :=
  bool_decide (key (p_cfg p) = k) &&
  match p_pc p with
  | AtRollback | AtYield _ | AtFinally _ => true
  | _ => false
  end.

(** Every entry of the record of [k] was there to start with or is the slot
    of a caller between its insert and its delete. *)
Definition accounted (k : string) (s0 : store) (g : gstate) : Prop :=
  ∀ f, is_Some (hget k f (g_store g)) →
       is_Some (hget k f s0) ∨
       ∃ j p, g_procs g !! j = Some p ∧ holds_slot k p = true ∧ p_id p = f.

(** Callers whose scoped block is running under the limiter [k]. *)
Definition in_block (k : string) (p : proc) : bool :=
  bool_decide (key (p_cfg p) = k) &&
  match p_pc p with AtYield _ => true | _ => false end.

(** The slot ids are pairwise distinct, the callers on [k] have a positive
    slot expiry, and the slot of every caller whose block is running under
    [k] is in the record. *)
Definition guarded (k : string) (g : gstate) : Prop :=
  NoDup (p_id <$> g_procs g) ∧
  Forall (λ p, key (p_cfg p) = k → 0 < limit_expire (p_cfg p)) (g_procs g) ∧
  ∀ j p, g_procs g !! j = Some p → in_block k p = true →
         is_Some (hget k (p_id p) (g_store g)).

(** Actions that delete nothing from the record of [k] behind the callers'
    backs: no reaper deletion in [k] and no expiry of [k]. *)
Definition spares (k : string) (a : action) : bool :=
  match a with
  | Step _ _ => true
  | Reap k' _ | Expired k' => negb (bool_decide (k' = k))
  end.

(** The program points of a caller that has not got past the pre-check or
    the post-check: in the loop without a slot, or leaving with the timeout
    error. *)
Definition waiting (p : proc) : Prop :=
  match p_pc p with
  | AtHlen | AtHandler | AtSleep => True
  | AtFinally x | Exited x =>
      x = Raised (Public (ConcurrencyLimitExceededException
                            (limit (p_cfg p)) (limit_timeout (p_cfg p))))
  | AtPipeline | AtRollback | AtYield _ => False
  end.

(** Every key that has a hash has a time-to-live. *)
Definition all_keys_expire (s : store) : Prop :=
  ∀ k, is_Some (hashes s !! k) → is_Some (ttls s !! k).

(** ** A worked execution

    Two callers share the limiter "jobs" with limit 1.  Both pass the
    pre-check on the empty record; caller 1 inserts first and enters its
    block; caller 0 inserts, reads 2, rolls back and sleeps; caller 1 leaves;
    caller 0 tries again and enters its block. *)

Definition ex_cfg : LimitConfiguration :=
  {| key := "jobs"; limit := 1; limit_timeout := 5; limit_expire := 30;
     limit_interval := 0.5 |}.

Definition ex_env (m : float) (b : block_result) : env :=
  {| mono := m; wall := 1000; block := b |}.

Definition ex_calls : list (LimitConfiguration * float * string) :=
  [(ex_cfg, 0%float, "a"); (ex_cfg, 0%float, "b")].

Definition ex_sched : list action :=
  [Step 0 (ex_env 0 Returns); Step 1 (ex_env 0 Returns);
   Step 1 (ex_env 0 Returns); Step 0 (ex_env 0 Returns);
   Step 0 (ex_env 0 Returns); Step 0 (ex_env 1 Returns);
   Step 1 (ex_env 1 Returns); Step 1 (ex_env 1 Returns);
   Step 0 (ex_env 1 Returns); Step 0 (ex_env 1 Returns);
   Step 0 (ex_env 1 Returns)].

(** Caller 0 gets the slot, a reaper deletion removes it while the block is
    still running, and caller 1 gets a slot as well. *)
Definition ex_sched_reaped : list action :=
  [Step 0 (ex_env 0 Returns); Step 0 (ex_env 0 Returns); Reap "jobs" "a";
   Step 1 (ex_env 0 Returns); Step 1 (ex_env 0 Returns)].

(** The same limiter with a slot expiry of 0 seconds, which the
    configuration is not meant to carry. *)
Definition ex_cfg_no_expiry : LimitConfiguration :=
  {| key := "jobs"; limit := 1; limit_timeout := 5; limit_expire := 0;
     limit_interval := 0.5 |}.

(** The record of "jobs" with the slot of caller "b" in it. *)
Definition ex_held : store := (hset "jobs" "b" (py_str 1030) Redis.empty).1.

(** A record with an expired, a live and a corrupt entry at time 1000. *)
Definition ex_record : store :=
  (execute [HSET "jobs" "s1" (py_str (1000 - 10));
            HSET "jobs" "s2" (py_str (1000 + 10));
            HSET "jobs" "s3" "corrupt"] Redis.empty).1.

(** ** The store: what each command does to each hash *)

Section StoreFacts.

Implicit Types (k f v : string) (s : store).

Lemma hgetall_hset k f v s k' :
  hgetall k' (hset k f v s).1 =
  if decide (k = k') then <[f := v]> (hgetall k s) else hgetall k' s.
Proof.
  unfold hset, hgetall at 1; simpl. case_decide as Hk.
  - subst. by rewrite lookup_insert_eq.
  - by rewrite lookup_insert_ne.
Qed.

Lemma hgetall_del_key k s k' :
  hgetall k' (del_key k s) = if decide (k = k') then ∅ else hgetall k' s.
Proof.
  unfold del_key, hgetall at 1; simpl. case_decide as Hk.
  - subst. by rewrite lookup_delete_eq.
  - by rewrite lookup_delete_ne.
Qed.

Lemma hgetall_expire k secs s k' :
  hgetall k' (expire k secs s).1 =
  if decide (k = k' ∧ secs <= 0) then ∅ else hgetall k' s.
Proof.
  unfold expire. destruct (hashes s !! k) as [h|] eqn:Hk; simpl.
  - destruct (Z.leb_spec secs 0); simpl.
    + rewrite hgetall_del_key. repeat case_decide; intuition congruence.
    + case_decide; [lia | done].
  - case_decide as Hd; [|done]. destruct Hd as [<- _].
    unfold hgetall. by rewrite Hk.
Qed.

Lemma hgetall_hdel k f s k' :
  hgetall k' (hdel k f s).1 =
  if decide (k = k') then delete f (hgetall k s) else hgetall k' s.
Proof.
  unfold hdel. destruct (hget k f s) as [v|] eqn:Hf; simpl.
  - case_decide as He.
    + rewrite hgetall_del_key. case_decide; by subst.
    + unfold hgetall at 1; simpl. case_decide as Hk.
      * subst. by rewrite lookup_insert_eq.
      * by rewrite lookup_insert_ne.
  - case_decide; [subst|done]. symmetry. by apply delete_id.
Qed.

Lemma hlen_nonneg k s : 0 <= hlen k s.
Proof. unfold hlen. lia. Qed.

Lemma hlen_dom k s : hlen k s = Z.of_nat (size (dom (hgetall k s))).
Proof. unfold hlen. by rewrite size_dom. Qed.

End StoreFacts.

(** ** The generator: what a step keeps and what it changes *)

Section StepFacts.

Implicit Types (i : env) (s : store) (p : proc) (k : string).

Lemma limit_step_locals i s p :
  p_cfg (limit_step i s p).1.1 = p_cfg p ∧
  p_id (limit_step i s p).1.1 = p_id p ∧
  p_start (limit_step i s p).1.1 = p_start p.
Proof.
  unfold limit_step. destruct (p_pc p); simpl;
    repeat match goal with
           | |- context [if ?b then _ else _] => destruct b
           | |- context [match ?b with Returns => _ | Raises _ => _ end] => destruct b
           | |- context [let '(_, _) := ?e in _] => destruct e
           end; simpl; done.
Qed.

Lemma elem_of_rollback_ids k (ps : list proc) x :
  x ∈ rollback_ids k ps ↔ ∃ p, p ∈ ps ∧ in_rollback k p = true ∧ p_id p = x.
Proof.
  unfold rollback_ids. rewrite elem_of_list_to_set, list_elem_of_fmap.
  split.
  - intros (p & -> & [Hr Hp]%list_elem_of_filter). by exists p.
  - intros (p & Hp & Hr & <-). exists p. split; [done|].
    apply list_elem_of_filter. done.
Qed.

Lemma rollback_ids_insert_sub k (ps : list proc) pid p p' :
  ps !! pid = Some p →
  rollback_ids k ps ∖ (if in_rollback k p then {[p_id p]} else ∅)
    ⊆ rollback_ids k (<[pid := p']> ps).
Proof.
  intros Hpid x [Hx Hnx]%elem_of_difference.
  apply elem_of_rollback_ids in Hx as (q & Hq & Hr & <-).
  apply list_elem_of_lookup in Hq as [j Hj].
  destruct (decide (j = pid)) as [->|Hne].
  - assert (q = p) as -> by congruence. rewrite Hr in Hnx. set_solver.
  - apply elem_of_rollback_ids. exists q. split; [|done].
    apply list_elem_of_lookup. exists j. by rewrite list_lookup_insert_ne.
Qed.

Lemma rollback_ids_insert_in k (ps : list proc) pid p p' :
  ps !! pid = Some p → in_rollback k p' = true →
  p_id p' ∈ rollback_ids k (<[pid := p']> ps).
Proof.
  intros Hpid Hr. apply elem_of_rollback_ids. exists p'. split; [|done].
  apply list_elem_of_lookup. exists pid. apply list_lookup_insert_eq.
  by eapply lookup_lt_Some.
Qed.

Lemma execute_cons (c : cmd) (cs : list cmd) s :
  execute (c :: cs) s =
  ((execute cs (exec_cmd c s).1).1,
   (exec_cmd c s).2 :: (execute cs (exec_cmd c s).1).2).
Proof.
  simpl. destruct (exec_cmd c s) as [s1 r]; simpl.
  by destruct (execute cs s1).
Qed.

(** The batch of lines 69-75: the hash afterwards, and the count read. *)
Lemma pipeline_spec s k f v secs :
  let r := execute [HSET k f v; EXPIRE k secs; HLEN k] s in
  (∀ k', hgetall k' r.1 =
         if decide (k = k' ∧ secs <= 0) then ∅
         else if decide (k = k') then <[f := v]> (hgetall k s)
         else hgetall k' s) ∧
  default 0 (last r.2) = hlen k r.1.
Proof.
  intros r. subst r. rewrite !execute_cons. split; [|reflexivity].
  intros k'. cbn [execute exec_cmd fst].
  by rewrite hgetall_expire, hgetall_hset.
Qed.

(** The step, program point by program point. *)
Lemma limit_step_spec i s p :
  let r := limit_step i s p in
  let cfg := p_cfg p in
  r.1.1 = set_pc p (p_pc r.1.1) ∧
  match p_pc p with
  | AtHlen =>
      r.1.2 = s ∧ r.2 = [HLEN (key cfg)] ∧
      ((limit cfg <= hlen (key cfg) s ∧ p_pc r.1.1 = AtHandler) ∨
       (hlen (key cfg) s < limit cfg ∧ p_pc r.1.1 = AtPipeline))
  | AtPipeline =>
      let cs := [HSET (key cfg) (p_id p) (py_str (wall i + limit_expire cfg));
                 EXPIRE (key cfg) (limit_expire cfg); HLEN (key cfg)] in
      r.1.2 = (execute cs s).1 ∧ r.2 = cs ∧
      ((limit cfg < hlen (key cfg) r.1.2 ∧ p_pc r.1.1 = AtRollback) ∨
       (hlen (key cfg) r.1.2 <= limit cfg ∧
        p_pc r.1.1 = AtYield (hlen (key cfg) r.1.2)))
  | AtRollback =>
      r.1.2 = (hdel (key cfg) (p_id p) s).1 ∧ r.2 = [HDEL (key cfg) (p_id p)] ∧
      p_pc r.1.1 = AtHandler
  | AtYield _ =>
      r.1.2 = s ∧ r.2 = [] ∧
      p_pc r.1.1 = match block i with
                   | Returns => AtFinally Completed
                   | Raises e => AtFinally (Raised (Public e))
                   end
  | AtHandler =>
      r.1.2 = s ∧ r.2 = [] ∧
      ((timed_out i p = true ∧
        p_pc r.1.1 = AtFinally (Raised (Public
          (ConcurrencyLimitExceededException (limit cfg) (limit_timeout cfg)))))
       ∨ (timed_out i p = false ∧ p_pc r.1.1 = AtSleep))
  | AtSleep => r.1.2 = s ∧ r.2 = [] ∧ p_pc r.1.1 = AtHlen
  | AtFinally x =>
      r.1.2 = (hdel (key cfg) (p_id p) s).1 ∧ r.2 = [HDEL (key cfg) (p_id p)] ∧
      p_pc r.1.1 = Exited x
  | Exited x => r.1.2 = s ∧ r.2 = [] ∧ p_pc r.1.1 = Exited x
  end.
Proof.
  intros r cfg. subst r cfg. unfold limit_step.
  destruct (p_pc p) eqn:Hpc.
  - cbn [exec_cmd].
    destruct (Z.geb_spec (hlen (key (p_cfg p)) s) (limit (p_cfg p)));
      simpl; intuition lia.
  - pose proof (pipeline_spec s (key (p_cfg p)) (p_id p)
                  (py_str (wall i + limit_expire (p_cfg p)))
                  (limit_expire (p_cfg p))) as [_ Hc].
    cbv zeta in Hc. cbv zeta.
    destruct (execute _ s) as [s1 rs]. simpl in Hc. rewrite Hc.
    destruct (Z.gtb_spec (hlen (key (p_cfg p)) s1) (limit (p_cfg p)));
      simpl; intuition lia.
  - cbn [exec_cmd]. destruct (hdel _ _ s). simpl. done.
  - destruct (block i); simpl; done.
  - destruct (timed_out i p); simpl; intuition.
  - simpl. done.
  - cbn [exec_cmd]. destruct (hdel _ _ s). simpl. done.
  - simpl. destruct p; simpl in *. by subst.
Qed.

End StepFacts.

(** ** Bounded record size *)

Section Bound.

Variables (k : string) (L : Z).

Lemma settled_mono (s s' : store) (ps ps' : list proc) tr tr' :
  dom (hgetall k s') ∖ rollback_ids k ps' ⊆ dom (hgetall k s) ∖ rollback_ids k ps →
  Forall (λ p, key (p_cfg p) = k → limit (p_cfg p) = L) ps' →
  settled k L (GState s ps tr) → settled k L (GState s' ps' tr').
Proof.
  intros Hsub HL [Hsz _]. split; [|done]. simpl in *.
  apply subseteq_size in Hsub. lia.
Qed.

Lemma settled_step pid i g : settled k L g → settled k L (exec_action g (Step pid i)).
Proof.
  intros Hg. destruct g as [s ps tr]. simpl.
  destruct (ps !! pid) as [p|] eqn:Hpid; [|done].
  destruct (limit_step i s p) as [[p' s'] cs] eqn:Hstep.
  pose proof (limit_step_locals i s p) as (Hcfg & Hid & _).
  rewrite Hstep in Hcfg, Hid; simpl in Hcfg, Hid.
  assert (HL' : Forall (λ p, key (p_cfg p) = k → limit (p_cfg p) = L) (<[pid := p']> ps)).
  { destruct Hg as [_ HL]. apply Forall_insert; [done|].
    rewrite Hcfg. by eapply (Forall_lookup_1 _ _ _ _ HL). }
  pose proof (rollback_ids_insert_sub k ps pid p p' Hpid) as Hsub.
  unfold limit_step in Hstep. destruct (p_pc p) eqn:Hpc.
  - (* line 63 *)
    assert (s' = s ∧ in_rollback k p = false) as [-> Hr].
    { unfold in_rollback. rewrite Hpc, andb_false_r.
      simpl in Hstep. destruct (_ >=? _); by inversion Hstep. }
    rewrite Hr in Hsub. eapply settled_mono; [|done..]. set_solver.
  - (* lines 69-75 *)
    assert (in_rollback k p = false) as Hr.
    { unfold in_rollback. by rewrite Hpc, andb_false_r. }
    rewrite Hr in Hsub.
    pose proof (pipeline_spec s (key (p_cfg p)) (p_id p)
                  (py_str (wall i + limit_expire (p_cfg p)))
                  (limit_expire (p_cfg p))) as [Hh Hc].
    cbv zeta in Hh, Hc.
    destruct (execute _ s) as [s1 rs] eqn:Hex. simpl in Hh, Hc.
    rewrite Hc in Hstep. specialize (Hh k).
    destruct (decide (key (p_cfg p) = k)) as [Hk|Hk].
    + destruct (Z.gtb_spec (hlen (key (p_cfg p)) s1) (limit (p_cfg p))) as [Hgt|Hle];
        inversion Hstep; subst p' s' cs; clear Hstep; rewrite Hk in Hh.
      * assert (p_id p ∈ rollback_ids k (<[pid := set_pc p AtRollback]> ps)) as Hin.
        { apply (rollback_ids_insert_in k ps pid p (set_pc p AtRollback) Hpid).
          unfold in_rollback. simpl. by rewrite bool_decide_eq_true_2. }
        eapply settled_mono; [|done..]. rewrite Hh.
        case_decide; [|rewrite dom_insert_L]; set_solver.
      * split; [|done]. simpl.
        destruct Hg as [_ HL].
        rewrite <- (Forall_lookup_1 _ _ _ _ HL Hpid Hk).
        rewrite Hk in Hle. rewrite hlen_dom in Hle.
        etransitivity; [|exact Hle]. apply inj_le, subseteq_size. set_solver.
    + assert (hgetall k s' = hgetall k s) as Hsame.
      { destruct (_ >? _); inversion Hstep; subst; rewrite Hh;
          repeat case_decide; naive_solver. }
      eapply settled_mono; [|done..]. rewrite Hsame. set_solver.
  - (* line 78 *)
    simpl in Hstep. destruct (hdel _ _ s) as [s1 n] eqn:Hdel.
    inversion Hstep; subst p' s' cs; clear Hstep.
    replace s1 with (hdel (key (p_cfg p)) (p_id p) s).1 by by rewrite Hdel.
    eapply settled_mono; [|done..]. rewrite hgetall_hdel.
    unfold in_rollback in Hsub. rewrite Hpc, andb_true_r in Hsub.
    destruct (decide (key (p_cfg p) = k)) as [Hk|Hk]; cbv beta iota.
    + rewrite bool_decide_eq_true_2 in Hsub by done.
      rewrite Hk, dom_delete_L. set_solver.
    + rewrite bool_decide_eq_false_2 in Hsub by done. set_solver.
  - (* line 82 *)
    assert (s' = s ∧ in_rollback k p = false) as [-> Hr].
    { unfold in_rollback. rewrite Hpc, andb_false_r.
      destruct (block i); by inversion Hstep. }
    rewrite Hr in Hsub. eapply settled_mono; [|done..]. set_solver.
  - (* line 86 *)
    assert (s' = s ∧ in_rollback k p = false) as [-> Hr].
    { unfold in_rollback. rewrite Hpc, andb_false_r.
      destruct (timed_out i p); by inversion Hstep. }
    rewrite Hr in Hsub. eapply settled_mono; [|done..]. set_solver.
  - (* line 97 *)
    assert (s' = s ∧ in_rollback k p = false) as [-> Hr].
    { unfold in_rollback. rewrite Hpc, andb_false_r. by inversion Hstep. }
    rewrite Hr in Hsub. eapply settled_mono; [|done..]. set_solver.
  - (* line 100 *)
    simpl in Hstep. destruct (hdel _ _ s) as [s1 n] eqn:Hdel.
    inversion Hstep; subst p' s' cs; clear Hstep.
    replace s1 with (hdel (key (p_cfg p)) (p_id p) s).1 by by rewrite Hdel.
    eapply settled_mono; [|done..]. rewrite hgetall_hdel.
    unfold in_rollback in Hsub. rewrite Hpc, andb_false_r in Hsub.
    destruct (decide (key (p_cfg p) = k)) as [Hk|Hk]; cbv beta iota;
      [rewrite Hk, dom_delete_L|]; set_solver.
  - (* finished *)
    assert (s' = s ∧ in_rollback k p = false) as [-> Hr].
    { unfold in_rollback. rewrite Hpc, andb_false_r. by inversion Hstep. }
    rewrite Hr in Hsub. eapply settled_mono; [|done..]. set_solver.
Qed.

Lemma settled_action a g : settled k L g → settled k L (exec_action g a).
Proof.
  destruct a as [pid i|k' f|k']; [apply settled_step|..]; intros Hg.
  - destruct g as [s ps tr]. simpl. eapply settled_mono; [|apply Hg|done].
    rewrite hgetall_hdel. case_decide; [subst; rewrite dom_delete_L|]; set_solver.
  - destruct g as [s ps tr]. simpl. destruct (ttls s !! k'); [|done].
    eapply settled_mono; [|apply Hg|done].
    rewrite hgetall_del_key. case_decide; [rewrite dom_empty_L|]; set_solver.
Qed.

Lemma settled_exec sched g : settled k L g → settled k L (exec sched g).
Proof.
  revert g. induction sched as [|a sched IH]; intros g Hg; [done|].
  simpl. apply IH, settled_action, Hg.
Qed.

End Bound.

Lemma size_list_to_set_le (l : list string) :
  (size (list_to_set l : gset string) <= length l)%nat.
Proof.
  induction l as [|x l IH].
  - rewrite list_to_set_nil, size_empty. done.
  - rewrite list_to_set_cons, size_union_alt, size_singleton. cbn [length].
    assert (size (list_to_set l ∖ {[x]} : gset string)
            <= size (list_to_set l : gset string))%nat
      by (apply subseteq_size; set_solver).
    lia.
Qed.

Lemma rollback_ids_none k (ps : list proc) :
  Forall (λ p, in_rollback k p = false) ps → rollback_ids k ps = ∅.
Proof.
  intros Hall. apply set_eq. intros x. rewrite elem_of_rollback_ids.
  split; [|set_solver]. intros (p & Hp & Hr & _).
  rewrite Forall_forall in Hall. specialize (Hall p Hp). congruence.
Qed.

Lemma settled_init k L s calls :
  hlen k s <= L →
  Forall (λ c : LimitConfiguration * float * string,
            key c.1.1 = k → limit c.1.1 = L) calls →
  settled k L (init s calls).
Proof.
  intros Hs Hcalls. split; simpl.
  - rewrite hlen_dom in Hs. etransitivity; [|exact Hs].
    apply inj_le, subseteq_size. set_solver.
  - apply Forall_map. eapply Forall_impl; [exact Hcalls|]. done.
Qed.

(** C1. With every caller on limiter [k] configured with the same limit [L]
    and a record that starts with at most [L] entries, in every state of
    every interleaving of callers, reaper deletions and key expiry the record
    of [k] holds at most [L] entries plus one for each caller that is
    between its insert (lines 69-75) and its own rollback (line 78); so the
    record holds at most [L] entries whenever no caller is in that window. *)
Theorem C1_at_most_limit_slots_outside_rollback_window
    (k : string) (L : Z) (s0 : store)
    (calls : list (LimitConfiguration * float * string)) (sched : list action) :
  hlen k s0 <= L →
  Forall (λ c : LimitConfiguration * float * string,
            key c.1.1 = k → limit c.1.1 = L) calls →
  let g := exec sched (init s0 calls) in
  hlen k (g_store g)
    <= L + Z.of_nat (length (filter (λ p, in_rollback k p = true) (g_procs g))) ∧
  (Forall (λ p, in_rollback k p = false) (g_procs g) → hlen k (g_store g) <= L).
Proof.
  intros Hs Hcalls g.
  assert (Hg : settled k L g) by by apply settled_exec, settled_init.
  destruct Hg as [Hsz _]. split.
  - pose proof (size_list_to_set_le
                  (p_id <$> filter (λ p, in_rollback k p = true) (g_procs g))) as Hle.
    rewrite length_fmap in Hle. fold (rollback_ids k (g_procs g)) in Hle.
    rewrite hlen_dom.
    assert (size (dom (hgetall k (g_store g)))
            <= size (dom (hgetall k (g_store g)) ∖ rollback_ids k (g_procs g))
               + size (rollback_ids k (g_procs g)))%nat.
    { rewrite Nat.add_comm, <- size_union_alt. apply subseteq_size. set_solver. }
    lia.
  - intros Hnone. rewrite (rollback_ids_none _ _ Hnone) in Hsz.
    rewrite hlen_dom. etransitivity; [|exact Hsz].
    apply inj_le, subseteq_size. set_solver.
Qed.

(** ** Single steps of one caller *)

Lemma hget_hdel_eq k f s : hget k f (hdel k f s).1 = None.
Proof.
  unfold hget. rewrite hgetall_hdel. case_decide; [|done].
  apply lookup_delete_eq.
Qed.

Lemma hget_hdel_ne k f s k' f' :
  (k', f') ≠ (k, f) → hget k' f' (hdel k f s).1 = hget k' f' s.
Proof.
  intros Hne. unfold hget. rewrite hgetall_hdel. case_decide; [subst|done].
  apply lookup_delete_ne. congruence.
Qed.

Lemma hdel_absent k f s : hget k f s = None → hdel k f s = (s, 0).
Proof. intros Hf. unfold hdel. by rewrite Hf. Qed.

Ltac step_contra :=
  exfalso;
  repeat match goal with
         | H : _ ∧ _ |- _ => destruct H
         | H : _ ∨ _ |- _ => destruct H
         end;
  congruence.

(** The step taken at line 100. *)
Lemma finally_step i s p x :
  p_pc p = AtFinally x →
  let r := limit_step i s p in
  p_pc r.1.1 = Exited x ∧
  r.1.2 = (hdel (key (p_cfg p)) (p_id p) s).1 ∧
  r.2 = [HDEL (key (p_cfg p)) (p_id p)] ∧
  hget (key (p_cfg p)) (p_id p) r.1.2 = None.
Proof.
  intros Hpc r. pose proof (limit_step_spec i s p) as [_ Hs].
  cbv zeta in Hs. rewrite Hpc in Hs. destruct Hs as (Hst & Hcs & Hpc').
  subst r. rewrite Hst. repeat split; try done. apply hget_hdel_eq.
Qed.

(** C2. However the context manager is left — the scoped block returns, the
    scoped block raises, or the wait times out — the caller goes to line 100,
    whose step sends HDEL for its own slot id and leaves that id absent from
    the record as the generator finishes; and the generator finishes in no
    other way. *)
Theorem C2_slot_deleted_on_every_exit (i i' : env) (s s' : store) (p : proc) :
  let cfg := p_cfg p in
  let p1 := (limit_step i s p).1.1 in
  let r := limit_step i' s' p1 in
  let released (x : exit) :=
    p_pc p1 = AtFinally x ∧ p_pc r.1.1 = Exited x ∧
    r.2 = [HDEL (key cfg) (p_id p)] ∧
    hget (key cfg) (p_id p) r.1.2 = None in
  (∀ c, p_pc p = AtYield c → block i = Returns → released Completed) ∧
  (∀ c e, p_pc p = AtYield c → block i = Raises e →
          released (Raised (Public e))) ∧
  (p_pc p = AtHandler → timed_out i p = true →
   released (Raised (Public
     (ConcurrencyLimitExceededException (limit cfg) (limit_timeout cfg))))) ∧
  (∀ x, p_pc p1 = Exited x → p_pc p ≠ Exited x →
        p_pc p = AtFinally x ∧
        (limit_step i s p).2 = [HDEL (key cfg) (p_id p)] ∧
        hget (key cfg) (p_id p) (limit_step i s p).1.2 = None).
Proof.
  intros cfg p1 r released.
  pose proof (limit_step_spec i s p) as [Hp1 Hs]. cbv zeta in Hp1, Hs.
  fold p1 in Hp1, Hs.
  assert (Hrel : ∀ x, p_pc p1 = AtFinally x → released x).
  { intros x Hx. pose proof (finally_step i' s' p1 x Hx) as (Ha & _ & Hb & Hc).
    fold r in Ha, Hb, Hc. rewrite Hp1 in Hb, Hc. simpl in Hb, Hc. done. }
  split; [|split; [|split]].
  - intros c Hpc Hb. apply Hrel. rewrite Hpc, Hb in Hs. apply Hs.
  - intros c e Hpc Hb. apply Hrel. rewrite Hpc, Hb in Hs. apply Hs.
  - intros Hpc Hlt. apply Hrel. rewrite Hpc in Hs.
    destruct Hs as (_ & _ & [[_ Hpc']|[Hle _]]); [done|congruence].
  - intros x Hx Hnx.
    destruct (p_pc p) as [| | |c| | |y|y] eqn:Hpc; try by step_contra.
    { destruct (block i); step_contra. }
    destruct Hs as (Hst & Hcs & Hpc').
    assert (y = x) as -> by congruence.
    rewrite Hst. split; [done|]. split; [done|]. apply hget_hdel_eq.
Qed.


(** C4. The batch of lines 69-75 writes the caller's slot id, refreshes the
    time-to-live and reads the count.  If that count exceeds the limit the
    caller is at line 78: its next step, whatever the others did meanwhile,
    sends HDEL for its own id, leaves the id absent and enters the handler.
    Otherwise the caller yields to the scoped block with that count. *)
Theorem C4_verify_rolls_back_or_yields_count
    (i i' : env) (s s' : store) (p : proc) :
  let cfg := p_cfg p in
  let batch := [HSET (key cfg) (p_id p) (py_str (wall i + limit_expire cfg));
                EXPIRE (key cfg) (limit_expire cfg); HLEN (key cfg)] in
  let r := limit_step i s p in
  let count := hlen (key cfg) r.1.2 in
  let r' := limit_step i' s' r.1.1 in
  p_pc p = AtPipeline →
  r.2 = batch ∧ r.1.2 = (execute batch s).1 ∧
  default 0 (last (execute batch s).2) = count ∧
  (limit cfg < count →
     p_pc r.1.1 = AtRollback ∧
     r'.2 = [HDEL (key cfg) (p_id p)] ∧
     hget (key cfg) (p_id p) r'.1.2 = None ∧
     p_pc r'.1.1 = AtHandler) ∧
  (count <= limit cfg → p_pc r.1.1 = AtYield count).
Proof.
  intros cfg batch r count r' Hpc.
  pose proof (limit_step_spec i s p) as [Hp1 Hs]. cbv zeta in Hp1, Hs.
  rewrite Hpc in Hs. fold cfg r batch in Hp1, Hs. fold batch in Hs.
  destruct Hs as (Hst & Hcs & Hcase). fold count in Hcase.
  split; [done|]. split; [done|]. split.
  { subst count. rewrite Hst.
    apply (pipeline_spec s (key cfg) (p_id p)
             (py_str (wall i + limit_expire cfg)) (limit_expire cfg)). }
  split.
  - intros Hgt. destruct Hcase as [[_ Hpc1]|[Hle _]]; [|lia].
    split; [done|].
    pose proof (limit_step_spec i' s' r.1.1) as [_ Hs']. cbv zeta in Hs'.
    rewrite Hpc1 in Hs'. fold r' in Hs'. rewrite Hp1 in Hs'. simpl in Hs'.
    fold cfg in Hs'. destruct Hs' as (Hst' & Hcs' & Hpc').
    split; [done|]. split; [|done]. rewrite Hst'. apply hget_hdel_eq.
  - intros Hle. destruct Hcase as [[Hgt _]|[_ Hpc1]]; [lia|done].
Qed.

(** C6. When the length read at line 63 is at least the limit, that step
    sends only the read and leaves the store as it was, and the caller is in
    the handler; the handler step and the sleep that may follow send nothing
    and leave the store as it is; so from the read to the next attempt, or to
    the timeout error, the caller sends no write. *)
Theorem C6_fast_reject_sends_no_write
    (i i' i'' : env) (s s' s'' : store) (p : proc) :
  let cfg := p_cfg p in
  let r := limit_step i s p in
  let r' := limit_step i' s' r.1.1 in
  let r'' := limit_step i'' s'' r'.1.1 in
  p_pc p = AtHlen → limit cfg <= hlen (key cfg) s →
  (r.1.2 = s ∧ r.2 = [HLEN (key cfg)] ∧ p_pc r.1.1 = AtHandler) ∧
  (r'.1.2 = s' ∧ r'.2 = [] ∧
   (p_pc r'.1.1 = AtSleep ∨ ∃ x, p_pc r'.1.1 = AtFinally x)) ∧
  (p_pc r'.1.1 = AtSleep →
     r''.1.2 = s'' ∧ r''.2 = [] ∧ p_pc r''.1.1 = AtHlen) ∧
  Forall (λ c, is_write c = false) (r.2 ++ r'.2) ∧
  (p_pc r'.1.1 = AtSleep → Forall (λ c, is_write c = false) r''.2).
Proof.
  intros cfg r r' r'' Hpc Hge.
  pose proof (limit_step_spec i s p) as [_ Hs]. cbv zeta in Hs.
  rewrite Hpc in Hs. fold cfg r in Hs.
  destruct Hs as (Hst & Hcs & [[_ Hpc1]|[Hlt _]]); [|lia].
  pose proof (limit_step_spec i' s' r.1.1) as [_ Hs']. cbv zeta in Hs'.
  rewrite Hpc1 in Hs'. fold r' in Hs'. destruct Hs' as (Hst' & Hcs' & Hcase').
  assert (Hsleep : p_pc r'.1.1 = AtSleep →
            r''.1.2 = s'' ∧ r''.2 = [] ∧ p_pc r''.1.1 = AtHlen).
  { intros Hpc2. pose proof (limit_step_spec i'' s'' r'.1.1) as [_ Hs''].
    cbv zeta in Hs''. rewrite Hpc2 in Hs''. done. }
  split; [done|]. split.
  { split; [done|]. split; [done|].
    destruct Hcase' as [[_ ?]|[_ ?]]; [right; eauto|by left]. }
  split; [done|]. split.
  - rewrite Hcs, Hcs'. simpl. by repeat constructor.
  - intros Hpc2. destruct (Hsleep Hpc2) as (_ & -> & _). constructor.
Qed.

(** C8. An exception [e] raised by the scoped block is not taken by the
    handler of line 85: the caller goes to line 100 with [e] itself, sends
    nothing on the way, and its next step deletes its slot id and finishes
    the generator with [e], the id being absent from the record. *)
Theorem C8_block_error_propagates_unmodified
    (cfg : LimitConfiguration) (start : float) (id : string) (count : Z)
    (e : public_exn) (mono1 : float) (wall1 : Z) (i' : env) (s s' : store) :
  let p := Proc cfg start id (AtYield count) in
  let r := limit_step {| mono := mono1; wall := wall1; block := Raises e |} s p in
  let r' := limit_step i' s' r.1.1 in
  except_LockAcquire (Public e) = false ∧
  r = (Proc cfg start id (AtFinally (Raised (Public e))), s, []) ∧
  r'.1.1 = Proc cfg start id (Exited (Raised (Public e))) ∧
  r'.2 = [HDEL (key cfg) id] ∧
  hget (key cfg) id r'.1.2 = None.
Proof.
  intros p r r'. split; [done|]. split; [done|].
  subst r'. subst r p. cbn [limit_step p_pc block set_pc raise_in_try
    except_LockAcquire fst snd p_cfg p_start p_id exec_cmd].
  destruct (hdel (key cfg) id s') as [s1 n] eqn:Hdel. cbn [fst snd].
  split; [done|]. split; [done|].
  replace s1 with (hdel (key cfg) id s').1 by by rewrite Hdel.
  apply hget_hdel_eq.
Qed.

(** C9. When the caller's slot id is absent from the record, the HDEL of line
    100 replies 0 and the step leaves the whole store as it was and finishes
    the generator with the outcome it was leaving with; and in any case that
    step changes no entry other than the caller's own. *)
Theorem C9_release_of_absent_id_is_noop
    (i : env) (s : store) (p : proc) (x : exit) :
  let cfg := p_cfg p in
  p_pc p = AtFinally x →
  (hget (key cfg) (p_id p) s = None →
     hdel (key cfg) (p_id p) s = (s, 0) ∧
     limit_step i s p = (set_pc p (Exited x), s, [HDEL (key cfg) (p_id p)])) ∧
  (∀ k f, (k, f) ≠ (key cfg, p_id p) →
     hget k f (limit_step i s p).1.2 = hget k f s).
Proof.
  intros cfg Hpc. split.
  - intros Habs. split; [by apply hdel_absent|].
    unfold limit_step. rewrite Hpc. cbn [exec_cmd]. fold cfg.
    by rewrite (hdel_absent _ _ _ Habs).
  - intros k f Hne. pose proof (finally_step i s p x Hpc) as (_ & Hst & _).
    rewrite Hst. by apply hget_hdel_ne.
Qed.

(** ** The reaper *)

Section ReaperFacts.

Variable py_int : string → option Z.
Variables (k : string) (now : Z).

Lemma clean_lock_true v :
  clean_lock py_int now v = true
  ↔ py_int v = None ∨ ∃ t, py_int v = Some t ∧ t <= now.
Proof.
  unfold clean_lock. destruct (py_int v) as [t|]; [|naive_solver].
  destruct (Z.geb_spec now t); split; try naive_solver.
  intros [?|(t' & [= <-] & ?)]; [done|lia].
Qed.

(** HDEL replies with the number of entries by which the hash shrank. *)
Lemma hdel_reply f s : (hdel k f s).2 = hlen k s - hlen k (hdel k f s).1.
Proof.
  unfold hlen. rewrite hgetall_hdel. rewrite decide_True by done.
  rewrite map_size_delete. unfold hdel. fold (hget k f s).
  destruct (hget k f s) as [v|] eqn:Hf; simpl; [|lia].
  assert (size (hgetall k s) ≠ 0%nat); [|lia].
  intros Hz. apply map_size_empty_inv in Hz. unfold hget in Hf.
  rewrite Hz in Hf. by rewrite lookup_empty in Hf.
Qed.

(** One pass of the loop body (lines 120-126). *)
Lemma clean_body_spec s n (e : string * string) :
  let r := clean_body py_int k now (s, n) e in
  (∀ f, hget k f r.1 =
        if bool_decide (e.1 = f ∧ clean_lock py_int now e.2 = true)
        then None else hget k f s) ∧
  (∀ k', k' ≠ k → hgetall k' r.1 = hgetall k' s) ∧
  r.2 = n + (hlen k s - hlen k r.1).
Proof.
  intros r. subst r. unfold clean_body. cbn [fst snd].
  destruct (clean_lock py_int now e.2) eqn:He.
  - pose proof (hdel_reply e.1 s) as Hn.
    pose proof (hgetall_hdel k e.1 s) as Hh.
    destruct (hdel k e.1 s) as [s1 m]. cbn [fst snd] in *.
    split; [|split]; [| |lia].
    + intros f. unfold hget. rewrite (Hh k), decide_True by done.
      case_bool_decide as Hf.
      * destruct Hf as [<- _]. apply lookup_delete_eq.
      * apply lookup_delete_ne. naive_solver.
    + intros k' Hk'. rewrite (Hh k'). by rewrite decide_False.
  - cbn [fst snd]. split; [|split]; [|done|lia].
    intros f. rewrite bool_decide_eq_false_2; [done|]. intros [_ ?]. done.
Qed.

(** The whole loop (lines 119-126) over the entries [scan]. *)
Lemma clean_scan_fold scan s n :
  let r := fold_left (clean_body py_int k now) scan (s, n) in
  (∀ f, hget k f r.1 =
        if bool_decide (Exists (λ e, e.1 = f ∧ clean_lock py_int now e.2 = true) scan)
        then None else hget k f s) ∧
  (∀ k', k' ≠ k → hgetall k' r.1 = hgetall k' s) ∧
  r.2 = n + (hlen k s - hlen k r.1).
Proof.
  revert s n. induction scan as [|e scan IH]; intros s n.
  { cbn [fold_left fst snd]. split; [|split]; [|done|lia].
    intros f. rewrite bool_decide_eq_false_2; [done|]. by inversion 1. }
  cbn [fold_left].
  destruct (clean_body_spec s n e) as (B1 & B2 & B3).
  destruct (clean_body py_int k now (s, n) e) as [s1 n1]. cbn [fst snd] in *.
  destruct (IH s1 n1) as (IH1 & IH2 & IH3).
  split; [|split].
  - intros f. rewrite IH1, B1.
    destruct (decide (Exists (λ e, e.1 = f ∧ clean_lock py_int now e.2 = true) scan))
      as [Hex|Hex].
    + rewrite !bool_decide_eq_true_2; [done| |done]. by apply Exists_cons_tl.
    + rewrite (bool_decide_eq_false_2 _ Hex).
      destruct (decide (e.1 = f ∧ clean_lock py_int now e.2 = true)) as [Hf|Hf].
      * rewrite !bool_decide_eq_true_2; [done| |done]. by apply Exists_cons_hd.
      * rewrite !bool_decide_eq_false_2; [done| |done].
        rewrite Exists_cons. naive_solver.
  - intros k' Hk'. by rewrite IH2, B2.
  - rewrite IH3, B3. lia.
Qed.

Lemma size_filter_stale (h : gmap string string) :
  (size (filter (λ e, clean_lock py_int now e.2 = true) h)
   + size (filter (λ e, clean_lock py_int now e.2 = false) h)
   = size h)%nat.
Proof.
  rewrite <- (map_filter_union_complement
                (λ e, clean_lock py_int now e.2 = true) h) at 3.
  rewrite map_size_disj_union by apply map_disjoint_filter_complement.
  do 2 f_equal. apply map_filter_ext. intros f v _. simpl.
  destruct (clean_lock py_int now v); naive_solver.
Qed.

(** [limit_clean] on an idle store. *)
Lemma limit_clean_spec cfg s :
  key cfg = k →
  let r := limit_clean py_int cfg now s in
  hgetall k r.1 = filter (λ e, clean_lock py_int now e.2 = false) (hgetall k s) ∧
  (∀ k', k' ≠ k → hgetall k' r.1 = hgetall k' s) ∧
  r.2 = Z.of_nat (size (filter (λ e, clean_lock py_int now e.2 = true) (hgetall k s))) ∧
  r.2 = hlen k s - hlen k r.1.
Proof.
  intros Hk r. subst r. unfold limit_clean, limit_clean_scan, hscan. rewrite Hk.
  destruct (clean_scan_fold (map_to_list (hgetall k s)) s 0) as (H1 & H2 & H3).
  assert (Hh : hgetall k (fold_left (clean_body py_int k now)
                            (map_to_list (hgetall k s)) (s, 0)).1
               = filter (λ e, clean_lock py_int now e.2 = false) (hgetall k s)).
  { apply map_eq. intros f. specialize (H1 f). unfold hget in H1. rewrite H1.
    destruct (hgetall k s !! f) as [v|] eqn:Hf.
    - destruct (clean_lock py_int now v) eqn:Hv.
      + rewrite bool_decide_eq_true_2.
        * symmetry. apply map_lookup_filter_None. right.
          intros x Hx. simpl. congruence.
        * apply Exists_exists. exists (f, v). split; [|done].
          by apply elem_of_map_to_list.
      + rewrite bool_decide_eq_false_2.
        * symmetry. by apply map_lookup_filter_Some.
        * rewrite Exists_exists. intros ([f' v'] & Hin & Hf' & Hst).
          simpl in *. subst f'. apply elem_of_map_to_list in Hin. congruence.
    - case_bool_decide; symmetry; apply map_lookup_filter_None; by left. }
  split; [done|]. split; [done|]. split; [|lia].
  rewrite H3. unfold hlen. rewrite Hh.
  pose proof (size_filter_stale (hgetall k s)). lia.
Qed.

End ReaperFacts.

(** C5. On an idle store [limit_clean] is total (an unparsable expiry is
    caught at line 122, it is not an error of the reaper); an entry is cleaned
    exactly when its expiry is unparsable or parses to a time at or before
    the current time; cleaned entries are gone from the record, every other
    entry and every other record is as before, and the value returned is the
    number of entries cleaned.  For a record with expiries now-10, now+10 and
    "corrupt", only the entry with now+10 is left and 2 is returned. *)
Theorem C5_reaper_removes_expired_and_unparsable
    (py_int : string → option Z) (cfg : LimitConfiguration) (now : Z) (s : store) :
  let k := key cfg in
  let stale (v : string) := clean_lock py_int now v in
  let r := limit_clean py_int cfg now s in
  (∀ v, stale v = true ↔ py_int v = None ∨ ∃ t, py_int v = Some t ∧ t <= now) ∧
  (∀ f v, hget k f s = Some v → hget k f r.1 = if stale v then None else Some v) ∧
  (∀ f, hget k f s = None → hget k f r.1 = None) ∧
  (∀ k', k' ≠ k → hgetall k' r.1 = hgetall k' s) ∧
  r.2 = Z.of_nat (size (filter (λ e, stale e.2 = true) (hgetall k s))) ∧
  (∀ a b c, a ≠ b → a ≠ c → b ≠ c →
     py_int (py_str (now - 10)) = Some (now - 10) →
     py_int (py_str (now + 10)) = Some (now + 10) →
     py_int "corrupt" = None →
     hgetall k s = {[a := py_str (now - 10); b := py_str (now + 10);
                     c := "corrupt"]} →
     hgetall k r.1 = {[b := py_str (now + 10)]} ∧ r.2 = 2).
Proof.
  intros k stale r.
  destruct (limit_clean_spec py_int k now cfg s eq_refl) as (H1 & H2 & H3 & H4).
  fold r in H1, H2, H3, H4. fold stale in H1, H3.
  assert (Hsome : ∀ f v, hget k f s = Some v →
                         hget k f r.1 = if stale v then None else Some v).
  { intros f v Hf. unfold hget in *. rewrite H1.
    destruct (stale v) eqn:Hv.
    - apply map_lookup_filter_None. right. intros x Hx Hst.
      subst stale. simpl in *. congruence.
    - by apply map_lookup_filter_Some. }
  assert (Hnone : ∀ f, hget k f s = None → hget k f r.1 = None).
  { intros f Hf. unfold hget in *. rewrite H1.
    apply map_lookup_filter_None. by left. }
  split; [apply clean_lock_true|]. do 4 (split; [done|]).
  intros a b c Hab Hac Hbc Ha Hb Hc Hs.
  assert (Sa : stale (py_str (now - 10)) = true).
  { apply clean_lock_true. right. exists (now - 10). split; [done|lia]. }
  assert (Sb : stale (py_str (now + 10)) = false).
  { subst stale. cbv beta. unfold clean_lock. rewrite Hb.
    destruct (Z.geb_spec now (now + 10)); [lia|done]. }
  assert (Sc : stale "corrupt" = true).
  { apply clean_lock_true. by left. }
  assert (Hr : hgetall k r.1 = {[b := py_str (now + 10)]}).
  { apply map_eq. intros f. fold (hget k f r.1).
    destruct (decide (f = b)) as [->|Hfb].
    - rewrite (Hsome b (py_str (now + 10))), Sb, lookup_singleton_eq; [done|].
      unfold hget. rewrite Hs. by simplify_map_eq.
    - rewrite lookup_singleton_ne by done.
      destruct (decide (f = a)) as [->|Hfa].
      { rewrite (Hsome a (py_str (now - 10))), Sa; [done|].
        unfold hget. rewrite Hs. by simplify_map_eq. }
      destruct (decide (f = c)) as [->|Hfc].
      { rewrite (Hsome c "corrupt"), Sc; [done|].
        unfold hget. rewrite Hs. by simplify_map_eq. }
      apply Hnone. unfold hget. rewrite Hs. by simplify_map_eq. }
  split; [done|]. rewrite H4. unfold hlen. rewrite Hr, Hs.
  rewrite map_size_singleton.
  rewrite !map_size_insert_None, map_size_singleton; [done|..];
    by simplify_map_eq.
Qed.

(** ** Invariants of interleaved executions *)

(** A step that ends at the yield comes from the batch of lines 69-75, and
    the count it carries is the length read there. *)
Lemma yield_step i s p c :
  0 < limit_expire (p_cfg p) →
  p_pc (limit_step i s p).1.1 = AtYield c →
  1 <= c <= limit (p_cfg p).
Proof.
  intros Hexp Hc.
  pose proof (limit_step_spec i s p) as [_ Hs]. cbv zeta in Hs.
  destruct (p_pc p) as [| | |c'| | |y|y] eqn:Hpc; try by step_contra.
  - destruct Hs as (Hst & _ & [[_ ?]|[Hle Hpc']]); [congruence|].
    rewrite Hc in Hpc'. injection Hpc' as ->. split; [|done].
    rewrite Hst.
    destruct (pipeline_spec s (key (p_cfg p)) (p_id p)
                (py_str (wall i + limit_expire (p_cfg p)))
                (limit_expire (p_cfg p))) as [Hh _].
    unfold hlen. rewrite (Hh (key (p_cfg p))).
    rewrite decide_False by lia. rewrite decide_True by done.
    assert (size (<[p_id p := py_str (wall i + limit_expire (p_cfg p))]>
                    (hgetall (key (p_cfg p)) s)) ≠ 0%nat); [|lia].
    intros Hz. apply map_size_empty_inv in Hz.
    by apply insert_non_empty in Hz.
  - destruct (block i); step_contra.
Qed.

Lemma yields_within_limit_action a g :
  Forall yields_within_limit (g_procs g) →
  Forall yields_within_limit (g_procs (exec_action g a)).
Proof.
  intros Hg. destruct a as [pid i|k f|k]; simpl; [|done|by destruct (ttls _ !! k)].
  destruct (g_procs g !! pid) as [p|] eqn:Hpid; [|done].
  destruct (Forall_lookup_1 _ _ _ _ Hg Hpid) as [Hexp Hy].
  pose proof (limit_step_locals i (g_store g) p) as (Hcfg & _ & _).
  pose proof (yield_step i (g_store g) p) as Hstep.
  destruct (limit_step i (g_store g) p) as [[p' s'] cs]. simpl in *.
  apply Forall_insert; [done|]. split; [by rewrite Hcfg|].
  intros c Hc. rewrite Hcfg. by apply Hstep.
Qed.

(** C10. With a positive slot expiry, in every state of every interleaving a
    caller suspended at the yield of line 82 has passed a count between 1 and
    its configured limit to the scoped block. *)
Theorem C10_yielded_count_between_one_and_limit
    (s0 : store) (calls : list (LimitConfiguration * float * string))
    (sched : list action) (p : proc) (c : Z) :
  Forall (λ call : LimitConfiguration * float * string,
            0 < limit_expire call.1.1) calls →
  p ∈ g_procs (exec sched (init s0 calls)) →
  p_pc p = AtYield c →
  1 <= c <= limit (p_cfg p).
Proof.
  intros Hcalls Hp Hc.
  assert (Hall : Forall yields_within_limit (g_procs (exec sched (init s0 calls)))).
  { assert (H0 : Forall yields_within_limit (g_procs (init s0 calls))).
    { simpl. apply Forall_map. eapply Forall_impl; [exact Hcalls|].
      intros call Hexp. split; [done|]. simpl. congruence. }
    revert H0. generalize (init s0 calls). clear.
    induction sched as [|a sched IH]; intros g Hg; [done|].
    simpl. by apply IH, yields_within_limit_action. }
  rewrite Forall_forall in Hall. destruct (Hall p Hp) as [_ Hy]. by apply Hy.
Qed.

Lemma step_fields i s p c f :
  c ∈ (limit_step i s p).2 → cmd_field c = Some f → f = p_id p.
Proof.
  pose proof (limit_step_spec i s p) as [_ Hs]. cbv zeta in Hs.
  intros Hin Hf.
  destruct (p_pc p); destruct Hs as (_ & Hcs & _); rewrite Hcs in Hin;
    repeat match goal with
           | H : _ ∈ [] |- _ => by apply elem_of_nil in H
           | H : _ ∈ _ :: _ |- _ => apply elem_of_cons in H as [->|H]
           end; simpl in Hf; congruence.
Qed.

Lemma uses_own_id_action ids a g :
  uses_own_id ids g → uses_own_id ids (exec_action g a).
Proof.
  intros [Hids Htr]. destruct a as [pid i|k f|k]; simpl;
    [|done|by destruct (ttls _ !! k)].
  destruct (g_procs g !! pid) as [p|] eqn:Hpid; [|done].
  pose proof (limit_step_locals i (g_store g) p) as (_ & Hid & _).
  pose proof (step_fields i (g_store g) p) as Hf.
  destruct (limit_step i (g_store g) p) as [[p' s'] cs].
  cbn [fst snd] in *.
  split; cbn [g_procs g_trace].
  - rewrite list_fmap_insert, Hid, <- Hids. apply list_insert_id.
    by rewrite list_lookup_fmap, Hpid.
  - intros pid' c f [Hin|Hin]%elem_of_app Hc; [by eapply Htr|].
    apply list_elem_of_fmap in Hin as (c' & [= -> ->] & Hin).
    rewrite (Hf c' f Hin Hc), <- Hids. by rewrite list_lookup_fmap, Hpid.
Qed.

Lemma attempt_ids_fields pid tr f :
  f ∈ attempt_ids pid tr → ∃ c, (pid, c) ∈ tr ∧ cmd_field c = Some f.
Proof.
  unfold attempt_ids. rewrite list_elem_of_omap.
  intros ([pid' c] & Hin & Hf). simpl in Hf.
  destruct c; try done. case_decide; [|done].
  injection Hf as <-. subst pid'. eauto.
Qed.

(** C7 (as amended). One slot id is drawn per call of [limit], before the
    loop (line 55): in every interleaving, every field a caller inserts or
    deletes, in every attempt, is the id its call started with. *)
Theorem C7_one_slot_id_per_call
    (s0 : store) (calls : list (LimitConfiguration * float * string))
    (sched : list action) (pid : nat) :
  let g := exec sched (init s0 calls) in
  let lock_id := snd <$> calls !! pid in
  (∀ c f, (pid, c) ∈ g_trace g → cmd_field c = Some f → lock_id = Some f) ∧
  Forall (λ f, lock_id = Some f) (attempt_ids pid (g_trace g)).
Proof.
  intros g lock_id.
  assert (Hg : uses_own_id (snd <$> calls) g).
  { subst g. assert (H0 : uses_own_id (snd <$> calls) (init s0 calls)).
    { split; simpl.
      - rewrite <- list_fmap_compose. done.
      - intros ? ? ? Hin. by apply elem_of_nil in Hin. }
    revert H0. generalize (init s0 calls). clear.
    induction sched as [|a sched IH]; intros g Hg; [done|].
    simpl. by apply IH, uses_own_id_action. }
  destruct Hg as [_ Htr].
  assert (Hall : ∀ c f, (pid, c) ∈ g_trace g → cmd_field c = Some f →
                        lock_id = Some f).
  { intros c f Hin Hf. subst lock_id. rewrite <- list_lookup_fmap. eauto. }
  split; [done|]. apply Forall_forall. intros f Hf.
  apply attempt_ids_fields in Hf as (c & Hin & Hc). eauto.
Qed.

(** ** The worked execution *)

Example ex_trace :
  g_trace (exec ex_sched (init Redis.empty ex_calls)) =
  [(0%nat, HLEN "jobs"); (1%nat, HLEN "jobs");
   (1%nat, HSET "jobs" "b" "1030"); (1%nat, EXPIRE "jobs" 30);
   (1%nat, HLEN "jobs");
   (0%nat, HSET "jobs" "a" "1030"); (0%nat, EXPIRE "jobs" 30);
   (0%nat, HLEN "jobs"); (0%nat, HDEL "jobs" "a");
   (1%nat, HDEL "jobs" "b"); (0%nat, HLEN "jobs");
   (0%nat, HSET "jobs" "a" "1030"); (0%nat, EXPIRE "jobs" 30);
   (0%nat, HLEN "jobs")].
Proof. vm_compute. reflexivity. Qed.

Example ex_final :
  p_pc <$> g_procs (exec ex_sched (init Redis.empty ex_calls))
  = [AtYield 1; Exited Completed] ∧
  hgetall "jobs" (g_store (exec ex_sched (init Redis.empty ex_calls)))
  = {["a" := "1030"]}.
Proof. split; vm_compute; reflexivity. Qed.

(** After the first four actions both slots are in the record of a limiter
    of limit 1, and caller 0 is about to roll back. *)
Example ex_overshoot :
  hlen "jobs" (g_store (exec (take 4 ex_sched) (init Redis.empty ex_calls))) = 2 ∧
  p_pc <$> g_procs (exec (take 4 ex_sched) (init Redis.empty ex_calls))
  = [AtRollback; AtYield 1].
Proof. split; vm_compute; reflexivity. Qed.

(** With a slot expiry of 0 the EXPIRE of the batch deletes the record, the
    length read back is 0, and the caller yields 0. *)
Example ex_no_expiry_yields_zero :
  p_pc (limit_step (ex_env 0 Returns) Redis.empty
          (Proc ex_cfg_no_expiry 0 "a" AtPipeline)).1.1 = AtYield 0.
Proof. vm_compute. reflexivity. Qed.

(** The elapsed time is the rounded difference of two doubles: for a call
    started at the double nearest 0.7 and a reading at the double nearest
    5.7, it is exactly 5, which does not exceed a timeout of 5, and the
    caller sleeps. *)
Example ex_elapsed_is_rounded :
  elapsed (ex_env 0x1.6cccccccccccdp+2 Returns)
    (Proc ex_cfg 0x1.6666666666666p-1 "a" AtHandler) = 5%float ∧
  p_pc (limit_step (ex_env 0x1.6cccccccccccdp+2 Returns) ex_held
          (Proc ex_cfg 0x1.6666666666666p-1 "a" AtHandler)).1.1 = AtSleep.
Proof. split; reflexivity. Qed.

(** C7 (as stated) fails: in the worked execution caller 0 makes two attempts
    that reach the pipeline, and both write the slot id "a". *)
Lemma C7_two_attempts_same_slot_id :
  attempt_ids 0 (g_trace (exec ex_sched (init Redis.empty ex_calls))) = ["a"; "a"] ∧
  ¬ NoDup (attempt_ids 0 (g_trace (exec ex_sched (init Redis.empty ex_calls)))).
Proof.
  assert (H : attempt_ids 0 (g_trace (exec ex_sched (init Redis.empty ex_calls)))
              = ["a"; "a"]) by (vm_compute; reflexivity).
  split; [exact H|]. rewrite H. intros [Hn _]%NoDup_cons.
  apply Hn. by left.
Qed.

Lemma C1_witness :
  hlen "jobs" (g_store (exec ex_sched (init Redis.empty ex_calls)))
    <= 1 + Z.of_nat (length (filter (λ p, in_rollback "jobs" p = true)
                               (g_procs (exec ex_sched (init Redis.empty ex_calls))))).
Proof.
  refine (proj1 (C1_at_most_limit_slots_outside_rollback_window
                   "jobs" 1 Redis.empty ex_calls ex_sched _ _)).
  - vm_compute. discriminate.
  - repeat constructor.
Defined.

Lemma C2_witness :
  p_pc (limit_step (ex_env 0 Returns) ex_held
          (limit_step (ex_env 0 Returns) ex_held
             (Proc ex_cfg 0 "b" (AtYield 1))).1.1).1.1 = Exited Completed ∧
  hget "jobs" "b"
    (limit_step (ex_env 0 Returns) ex_held
       (limit_step (ex_env 0 Returns) ex_held
          (Proc ex_cfg 0 "b" (AtYield 1))).1.1).1.2 = None.
Proof.
  destruct (proj1 (C2_slot_deleted_on_every_exit
                     (ex_env 0 Returns) (ex_env 0 Returns) ex_held ex_held
                     (Proc ex_cfg 0 "b" (AtYield 1))) 1 eq_refl eq_refl)
    as (_ & H1 & _ & H2).
  exact (conj H1 H2).
Defined.


Lemma C4_witness :
  p_pc (limit_step (ex_env 0 Returns) ex_held (Proc ex_cfg 0 "a" AtPipeline)).1.1
  = AtRollback ∧
  p_pc (limit_step (ex_env 0 Returns) Redis.empty
          (Proc ex_cfg 0 "a" AtPipeline)).1.1 = AtYield 1.
Proof.
  split.
  - destruct (C4_verify_rolls_back_or_yields_count
                (ex_env 0 Returns) (ex_env 0 Returns) ex_held ex_held
                (Proc ex_cfg 0 "a" AtPipeline) eq_refl) as (_ & _ & _ & H & _).
    apply H. reflexivity.
  - destruct (C4_verify_rolls_back_or_yields_count
                (ex_env 0 Returns) (ex_env 0 Returns) Redis.empty Redis.empty
                (Proc ex_cfg 0 "a" AtPipeline) eq_refl) as (_ & _ & _ & _ & H).
    apply H. vm_compute. discriminate.
Defined.

Lemma C5_witness :
  hgetall "jobs" (limit_clean dec_int ex_cfg 1000 ex_record).1
  = {["s2" := py_str 1010]} ∧
  (limit_clean dec_int ex_cfg 1000 ex_record).2 = 2.
Proof.
  destruct (C5_reaper_removes_expired_and_unparsable dec_int ex_cfg 1000 ex_record)
    as (_ & _ & _ & _ & _ & H).
  apply (H "s1" "s2" "s3"); try done; reflexivity.
Defined.

Lemma C6_witness :
  (limit_step (ex_env 0 Returns) ex_held (Proc ex_cfg 0 "a" AtHlen)).1.2 = ex_held ∧
  (limit_step (ex_env 0 Returns) ex_held (Proc ex_cfg 0 "a" AtHlen)).2
  = [HLEN "jobs"] ∧
  p_pc (limit_step (ex_env 0 Returns) ex_held (Proc ex_cfg 0 "a" AtHlen)).1.1
  = AtHandler.
Proof.
  refine (proj1 (C6_fast_reject_sends_no_write
                   (ex_env 0 Returns) (ex_env 0 Returns) (ex_env 0 Returns)
                   ex_held ex_held ex_held (Proc ex_cfg 0 "a" AtHlen) eq_refl _)).
  vm_compute. discriminate.
Defined.

Lemma C7_witness :
  Forall (λ f, Some "a" = Some f)
    (attempt_ids 0 (g_trace (exec ex_sched (init Redis.empty ex_calls)))).
Proof.
  exact (proj2 (C7_one_slot_id_per_call Redis.empty ex_calls ex_sched 0)).
Defined.

Lemma C9_witness :
  limit_step (ex_env 0 Returns) ex_held (Proc ex_cfg 0 "a" (AtFinally Completed))
  = (Proc ex_cfg 0 "a" (Exited Completed), ex_held, [HDEL "jobs" "a"]).
Proof.
  refine (proj2 (proj1 (C9_release_of_absent_id_is_noop
                   (ex_env 0 Returns) ex_held
                   (Proc ex_cfg 0 "a" (AtFinally Completed)) Completed eq_refl) _)).
  reflexivity.
Defined.

Lemma C10_witness : 1 <= 1 <= limit ex_cfg.
Proof.
  apply (C10_yielded_count_between_one_and_limit
           Redis.empty ex_calls ex_sched (Proc ex_cfg 0 "a" (AtYield 1)) 1).
  - repeat constructor.
  - vm_compute. left.
  - reflexivity.
Defined.

(** ** Further properties of the store commands *)

Section StoreFrame.

Implicit Types (k f v : string) (s : store) (c : cmd).

(** A command leaves the hash and the time-to-live of every other key as
    they were. *)
Lemma exec_cmd_other c s k' :
  cmd_key c ≠ k' →
  hashes (exec_cmd c s).1 !! k' = hashes s !! k' ∧
  ttls (exec_cmd c s).1 !! k' = ttls s !! k'.
Proof.
  intros Hk. destruct c as [k|k f v|k secs|k f]; simpl in Hk; cbn [exec_cmd].
  - done.
  - unfold hset. simpl. by rewrite lookup_insert_ne.
  - unfold expire. destruct (hashes s !! k); [|done].
    destruct (secs <=? 0); unfold del_key; simpl.
    + by rewrite !lookup_delete_ne.
    + by rewrite lookup_insert_ne.
  - unfold hdel. destruct (hget k f s); [|done]. simpl.
    case_decide; unfold del_key; simpl.
    + by rewrite !lookup_delete_ne.
    + by rewrite lookup_insert_ne.
Qed.

Lemma execute_other (cs : list cmd) s k' :
  Forall (λ c, cmd_key c ≠ k') cs →
  hashes (execute cs s).1 !! k' = hashes s !! k' ∧
  ttls (execute cs s).1 !! k' = ttls s !! k'.
Proof.
  revert s. induction cs as [|c cs IH]; intros s Hall; [done|].
  apply Forall_cons in Hall as [Hc Hall]. rewrite execute_cons. cbn [fst].
  destruct (IH (exec_cmd c s).1 Hall) as [-> ->]. by apply exec_cmd_other.
Qed.

Lemma hdel_keeps_ttl k f s :
  all_keys_expire s → all_keys_expire (hdel k f s).1.
Proof.
  intros Hs k'. unfold hdel. destruct (hget k f s) as [v|] eqn:Hf; [|apply Hs].
  simpl. case_decide; unfold del_key; simpl.
  - destruct (decide (k = k')) as [->|Hk].
    + rewrite lookup_delete_eq. by intros [? ?].
    + rewrite !lookup_delete_ne by done. apply Hs.
  - destruct (decide (k = k')) as [->|Hk].
    + intros _. apply Hs. unfold hget, hgetall in Hf.
      destruct (hashes s !! k'); [done|]. simpl in Hf.
      by rewrite lookup_empty in Hf.
    + rewrite lookup_insert_ne by done. apply Hs.
Qed.

Lemma del_key_keeps_ttl k s :
  all_keys_expire s → all_keys_expire (del_key k s).
Proof.
  intros Hs k'. unfold del_key. simpl. destruct (decide (k = k')) as [->|Hk].
  - rewrite lookup_delete_eq. by intros [? ?].
  - rewrite !lookup_delete_ne by done. apply Hs.
Qed.

Lemma expire_after_hset k f v secs s :
  expire k secs (hset k f v s).1 =
  if secs <=? 0 then (del_key k (hset k f v s).1, 1)
  else (Store (hashes (hset k f v s).1) (<[k := secs]> (ttls s)), 1).
Proof. unfold expire, hset. simpl. by rewrite lookup_insert_eq. Qed.

(** The batch of lines 69-75 never leaves a record without a time-to-live:
    the key it creates is given one, or is deleted, in the same batch. *)
Lemma pipeline_keeps_ttl k f v secs s :
  all_keys_expire s →
  all_keys_expire (execute [HSET k f v; EXPIRE k secs; HLEN k] s).1.
Proof.
  intros Hs k'. rewrite !execute_cons. cbn [execute exec_cmd fst].
  rewrite expire_after_hset. destruct (secs <=? 0); cbn [fst].
  - unfold del_key, hset. simpl. destruct (decide (k = k')) as [->|Hk].
    + rewrite lookup_delete_eq. by intros [? ?].
    + rewrite !lookup_delete_ne, lookup_insert_ne by done. apply Hs.
  - unfold hset. simpl. destruct (decide (k = k')) as [->|Hk].
    + rewrite !lookup_insert_eq. eauto.
    + rewrite !lookup_insert_ne by done. apply Hs.
Qed.

End StoreFrame.

(** ** Further properties of one step *)

(** The store after a step: untouched, or after the delete of the caller's
    own id, or after the batch of lines 69-75. *)
Lemma limit_step_store_cases (i : env) (s : store) (p : proc) :
  let cfg := p_cfg p in
  (limit_step i s p).1.2 = s ∨
  (limit_step i s p).1.2 = (exec_cmd (HDEL (key cfg) (p_id p)) s).1 ∨
  (p_pc p = AtPipeline ∧
   (limit_step i s p).1.2 =
   (execute [HSET (key cfg) (p_id p) (py_str (wall i + limit_expire cfg));
             EXPIRE (key cfg) (limit_expire cfg); HLEN (key cfg)] s).1).
Proof.
  intros cfg. pose proof (limit_step_spec i s p) as [_ Hs]. cbv zeta in Hs.
  destruct (p_pc p); destruct Hs as (Hst & _); rewrite Hst; auto.
Qed.

(** X3. A step of [limit] leaves the hash and the time-to-live of every key
    other than its limiter name as they were; and with a positive slot expiry
    it leaves every entry of its own record other than its own slot id as it
    was. *)
Theorem limit_step_touches_only_own_entry (i : env) (s : store) (p : proc) :
  let cfg := p_cfg p in
  let s' := (limit_step i s p).1.2 in
  (∀ k, k ≠ key cfg →
        hashes s' !! k = hashes s !! k ∧ ttls s' !! k = ttls s !! k) ∧
  (0 < limit_expire cfg →
   ∀ f, f ≠ p_id p → hget (key cfg) f s' = hget (key cfg) f s).
Proof.
  intros cfg s'. subst s'.
  destruct (limit_step_store_cases i s p) as [->|[->|[_ ->]]]; fold cfg.
  - done.
  - split.
    + intros k Hk. by apply exec_cmd_other.
    + intros _ f Hf. apply hget_hdel_ne. congruence.
  - split.
    + intros k Hk. apply execute_other. by repeat constructor.
    + intros Hexp f Hf.
      destruct (pipeline_spec s (key cfg) (p_id p)
                  (py_str (wall i + limit_expire cfg)) (limit_expire cfg))
        as [Hh _].
      unfold hget. rewrite (Hh (key cfg)).
      rewrite decide_False by lia. rewrite decide_True by done.
      by apply lookup_insert_ne.
Qed.

Lemma all_keys_expire_action a g :
  all_keys_expire (g_store g) → all_keys_expire (g_store (exec_action g a)).
Proof.
  intros Hg. destruct a as [pid i|k f|k]; simpl.
  - destruct (g_procs g !! pid) as [p|]; [|done].
    destruct (limit_step_store_cases i (g_store g) p) as [Hs|[Hs|[_ Hs]]];
      destruct (limit_step i (g_store g) p) as [[p' s'] cs];
      simpl in Hs; subst s'; simpl.
    + done.
    + by apply hdel_keeps_ttl.
    + by apply pipeline_keeps_ttl.
  - by apply hdel_keeps_ttl.
  - destruct (ttls (g_store g) !! k); [|done]. by apply del_key_keeps_ttl.
Qed.

(** X4. If every record in the store has a time-to-live to start with, then
    in every state of every interleaving every record has one: a limiter
    record is never left to live forever. *)
Theorem records_always_carry_a_ttl
    (s0 : store) (calls : list (LimitConfiguration * float * string))
    (sched : list action) :
  all_keys_expire s0 →
  all_keys_expire (g_store (exec sched (init s0 calls))).
Proof.
  intros H0. change s0 with (g_store (init s0 calls)) in H0.
  revert H0. generalize (init s0 calls).
  induction sched as [|a sched IH]; intros g Hg; [done|].
  simpl. by apply IH, all_keys_expire_action.
Qed.

Lemma private_exception_step (i : env) (s : store) (p : proc) :
  (∀ x, p_pc p = AtFinally x ∨ p_pc p = Exited x →
        x ≠ Raised LockAcquireException) →
  ∀ x, p_pc (limit_step i s p).1.1 = AtFinally x ∨
       p_pc (limit_step i s p).1.1 = Exited x →
       x ≠ Raised LockAcquireException.
Proof.
  intros Hp x Hx. pose proof (limit_step_spec i s p) as [_ Hs]. cbv zeta in Hs.
  destruct (p_pc p) as [| | |c| | |y|y] eqn:Hpc.
  - destruct Hx; step_contra.
  - destruct Hx; step_contra.
  - destruct Hx; step_contra.
  - destruct Hs as (_ & _ & Hpc'). rewrite Hpc' in Hx.
    destruct (block i); destruct Hx as [Hx|Hx]; inversion Hx; done.
  - destruct Hs as (_ & _ & [[_ Hpc']|[_ Hpc']]); rewrite Hpc' in Hx;
      destruct Hx as [Hx|Hx]; inversion Hx; done.
  - destruct Hx; step_contra.
  - destruct Hs as (_ & _ & Hpc'). rewrite Hpc' in Hx.
    destruct Hx as [Hx|Hx]; inversion Hx; subst. apply Hp. by left.
  - destruct Hs as (_ & _ & Hpc'). rewrite Hpc' in Hx.
    destruct Hx as [Hx|Hx]; inversion Hx; subst. apply Hp. by right.
Qed.

(** X11. The private [_LockAcquireException] never leaves the generator: in
    no state of any interleaving is a caller at line 100, or finished, with
    that exception. *)
Theorem private_exception_never_escapes
    (s0 : store) (calls : list (LimitConfiguration * float * string))
    (sched : list action) (p : proc) :
  p ∈ g_procs (exec sched (init s0 calls)) →
  p_pc p ≠ AtFinally (Raised LockAcquireException) ∧
  p_pc p ≠ Exited (Raised LockAcquireException).
Proof.
  intros Hp.
  assert (Hall : Forall (λ p, ∀ x, p_pc p = AtFinally x ∨ p_pc p = Exited x →
                                   x ≠ Raised LockAcquireException)
                   (g_procs (exec sched (init s0 calls)))).
  { assert (H0 : Forall (λ p, ∀ x, p_pc p = AtFinally x ∨ p_pc p = Exited x →
                                   x ≠ Raised LockAcquireException)
                   (g_procs (init s0 calls))).
    { simpl. apply Forall_map, Forall_forall. intros call _ x [Hx|Hx]; done. }
    revert H0. generalize (init s0 calls). clear.
    induction sched as [|a sched IH]; intros g Hg; [done|].
    simpl. apply IH. destruct a as [pid i|k f|k]; simpl;
      [|done|by destruct (ttls _ !! k)].
    destruct (g_procs g !! pid) as [p|] eqn:Hpid; [|done].
    pose proof (private_exception_step i (g_store g) p
                  (Forall_lookup_1 _ _ _ _ Hg Hpid)) as Hstep.
    destruct (limit_step i (g_store g) p) as [[p' s'] cs]. simpl in *.
    by apply Forall_insert. }
  rewrite Forall_forall in Hall. specialize (Hall p Hp).
  split; intros Hpc; eapply Hall; eauto.
Qed.

(** ** No slot is left behind *)

Section NoLeak.

Variables (k : string) (s0 : store).

Lemma hget_hdel_sub k' f' f s :
  is_Some (hget k f (hdel k' f' s).1) →
  is_Some (hget k f s) ∧ (k, f) ≠ (k', f').
Proof.
  intros Hf. destruct (decide ((k, f) = (k', f'))) as [[= <- <-]|Hne].
  - rewrite hget_hdel_eq in Hf. by destruct Hf.
  - by rewrite hget_hdel_ne in Hf.
Qed.

Lemma hget_del_key_sub k' f s :
  is_Some (hget k f (del_key k' s)) → is_Some (hget k f s).
Proof.
  unfold hget. rewrite hgetall_del_key. case_decide; [|done].
  rewrite lookup_empty. by intros [? ?].
Qed.

Lemma holder_kept (ps : list proc) pid p p' f :
  ps !! pid = Some p →
  holds_slot k p = false ∨ f ≠ p_id p ∨
    (holds_slot k p' = true ∧ p_id p' = p_id p) →
  (∃ j q, ps !! j = Some q ∧ holds_slot k q = true ∧ p_id q = f) →
  ∃ j q, <[pid := p']> ps !! j = Some q ∧ holds_slot k q = true ∧ p_id q = f.
Proof.
  intros Hpid Hcase (j & q & Hj & Hq & Hf).
  destruct (decide (j = pid)) as [->|Hne].
  - assert (q = p) as -> by congruence.
    destruct Hcase as [?|[?|[Hp' Hid]]]; [congruence|congruence|].
    exists pid, p'. rewrite list_lookup_insert_eq by by eapply lookup_lt_Some.
    split; [done|]. split; [done|]. congruence.
  - exists j, q. by rewrite list_lookup_insert_ne.
Qed.

Lemma accounted_step pid i g :
  accounted k s0 g → accounted k s0 (exec_action g (Step pid i)).
Proof.
  intros Hg. destruct g as [s ps tr]. simpl.
  destruct (ps !! pid) as [p|] eqn:Hpid; [|done].
  pose proof (limit_step_spec i s p) as [Hp' Hs]. cbv zeta in Hp', Hs.
  destruct (limit_step i s p) as [[p' s'] cs]. cbn [fst snd] in Hp', Hs.
  intros f Hf. cbn [g_store g_procs] in *.
  assert (Hlt : (pid < length ps)%nat) by by eapply lookup_lt_Some.
  assert (Hloop : holds_slot k p = false → s' = s → accounted k s0 (GState s' (<[pid := p']> ps) tr)).
  { intros Hno -> f' Hf'. destruct (Hg f' Hf') as [?|Hw]; [by left|right].
    eapply holder_kept; eauto. }
  destruct (p_pc p) as [| | |c| | |y|y] eqn:Hpc.
  - destruct Hs as (Hst & _). apply (Hloop); [|done|done].
    unfold holds_slot. by rewrite Hpc, andb_false_r.
  - destruct Hs as (Hst & _ & Hcase).
    assert (Hno : holds_slot k p = false).
    { unfold holds_slot. by rewrite Hpc, andb_false_r. }
    destruct (pipeline_spec s (key (p_cfg p)) (p_id p)
                (py_str (wall i + limit_expire (p_cfg p)))
                (limit_expire (p_cfg p))) as [Hh _].
    rewrite <- Hst in Hh. specialize (Hh k). unfold hget in Hf.
    rewrite Hh in Hf.
    destruct (decide (key (p_cfg p) = k)) as [Hk|Hk].
    + case_decide; [rewrite lookup_empty in Hf; by destruct Hf|].
      destruct (decide (f = p_id p)) as [->|Hne].
      * right. exists pid, p'. rewrite list_lookup_insert_eq by done.
        split; [done|]. rewrite Hp'. simpl. split; [|done].
        unfold holds_slot. simpl. rewrite bool_decide_eq_true_2 by done.
        destruct Hcase as [[_ ->]|[_ ->]]; done.
      * rewrite Hk, lookup_insert_ne in Hf by done.
        destruct (Hg f Hf) as [?|Hw]; [by left|right].
        eapply holder_kept; eauto.
    + rewrite decide_False in Hf by naive_solver.
      destruct (Hg f Hf) as [?|Hw]; [by left|right].
      eapply holder_kept; eauto.
  - destruct Hs as (Hst & _). rewrite Hst in Hf.
    apply hget_hdel_sub in Hf as [Hf Hne].
    destruct (Hg f Hf) as [?|Hw]; [by left|right].
    eapply holder_kept; [done| |done].
    destruct (decide (f = p_id p)) as [->|?]; [|by right; left].
    left. unfold holds_slot. rewrite bool_decide_eq_false_2; [done|congruence].
  - destruct Hs as (Hst & _ & Hpc'). subst s'.
    destruct (Hg f Hf) as [?|Hw]; [by left|right].
    eapply holder_kept; [done| |done].
    destruct (holds_slot k p) eqn:Hh; [|by left]. right; right.
    rewrite Hp'. simpl. split; [|done]. unfold holds_slot in *. simpl.
    rewrite Hpc'. apply andb_true_iff in Hh as [-> _]. by destruct (block i).
  - destruct Hs as (Hst & _). apply (Hloop); [|done|done].
    unfold holds_slot. by rewrite Hpc, andb_false_r.
  - destruct Hs as (Hst & _). apply (Hloop); [|done|done].
    unfold holds_slot. by rewrite Hpc, andb_false_r.
  - destruct Hs as (Hst & _). rewrite Hst in Hf.
    apply hget_hdel_sub in Hf as [Hf Hne].
    destruct (Hg f Hf) as [?|Hw]; [by left|right].
    eapply holder_kept; [done| |done].
    destruct (decide (f = p_id p)) as [->|?]; [|by right; left].
    left. unfold holds_slot. rewrite bool_decide_eq_false_2; [done|congruence].
  - destruct Hs as (Hst & _). apply (Hloop); [|done|done].
    unfold holds_slot. by rewrite Hpc, andb_false_r.
Qed.

End NoLeak.

Lemma accounted_action k s0 a g :
  accounted k s0 g → accounted k s0 (exec_action g a).
Proof.
  destruct a as [pid i|k' f'|k']; [apply accounted_step|..]; intros Hg f Hf.
  - simpl in *. apply hget_hdel_sub in Hf as [Hf _]. by apply Hg.
  - simpl in *. destruct (ttls (g_store g) !! k'); [|by apply Hg].
    simpl in *. apply hget_del_key_sub in Hf. by apply Hg.
Qed.

(** X2. In every state of every interleaving, an entry of a limiter record
    was in the record to start with or carries the slot id of a caller that
    is between its insert and its delete (lines 69-100); so once no caller is
    there any more, nothing is in the record that was not there before. *)
Theorem no_slot_left_behind
    (k : string) (s0 : store)
    (calls : list (LimitConfiguration * float * string)) (sched : list action) :
  let g := exec sched (init s0 calls) in
  (∀ f, is_Some (hget k f (g_store g)) →
        is_Some (hget k f s0) ∨
        ∃ p, p ∈ g_procs g ∧ holds_slot k p = true ∧ p_id p = f) ∧
  (Forall (λ p, holds_slot k p = false) (g_procs g) →
   dom (hgetall k (g_store g)) ⊆ dom (hgetall k s0)).
Proof.
  intros g.
  assert (Hg : accounted k s0 g).
  { subst g. assert (H0 : accounted k s0 (init s0 calls)) by (intros f Hf; by left).
    revert H0. generalize (init s0 calls).
    induction sched as [|a sched IH]; intros g Hg; [done|].
    simpl. by apply IH, accounted_action. }
  assert (Hall : ∀ f, is_Some (hget k f (g_store g)) →
            is_Some (hget k f s0) ∨
            ∃ p, p ∈ g_procs g ∧ holds_slot k p = true ∧ p_id p = f).
  { intros f Hf. destruct (Hg f Hf) as [?|(j & p & Hj & Hp & Hid)]; [by left|].
    right. exists p. split; [|done]. by eapply list_elem_of_lookup_2. }
  split; [done|]. intros Hnone f Hf. apply elem_of_dom in Hf.
  apply elem_of_dom. destruct (Hall f Hf) as [?|(p & Hp & Hh & _)]; [done|].
  rewrite Forall_forall in Hnone. specialize (Hnone p Hp). congruence.
Qed.

(** ** Callers in their block *)

Lemma init_ids s0 (calls : list (LimitConfiguration * float * string)) :
  p_id <$> g_procs (init s0 calls) = calls.*2.
Proof. simpl. induction calls as [|c calls IH]; [done|]. simpl. by f_equal. Qed.

Lemma init_pcs s0 (calls : list (LimitConfiguration * float * string)) p :
  p ∈ g_procs (init s0 calls) → p_pc p = AtHlen.
Proof.
  simpl. intros Hp. apply list_elem_of_In, in_map_iff in Hp as (c & <- & _).
  done.
Qed.

Lemma guarded_step k pid i g :
  guarded k g → guarded k (exec_action g (Step pid i)).
Proof.
  intros (Hnd & Hexp & Hin). destruct g as [s ps tr]. simpl in *.
  destruct (ps !! pid) as [p|] eqn:Hpid; [|done].
  pose proof (limit_step_spec i s p) as [Hp' Hs]. cbv zeta in Hp', Hs.
  pose proof (limit_step_store_cases i s p) as Hcases. cbv zeta in Hcases.
  destruct (limit_step i s p) as [[p' s'] cs]. cbn [fst snd] in Hp', Hs, Hcases.
  assert (Hids : p_id <$> <[pid := p']> ps = p_id <$> ps).
  { rewrite list_fmap_insert, Hp'. simpl. apply list_insert_id.
    by rewrite list_lookup_fmap, Hpid. }
  destruct (pipeline_spec s (key (p_cfg p)) (p_id p)
              (py_str (wall i + limit_expire (p_cfg p)))
              (limit_expire (p_cfg p))) as [Hh _].
  specialize (Hh k). unfold guarded. cbn [g_procs g_store].
  split; [by rewrite Hids|]. split.
  { apply Forall_insert; [done|]. rewrite Hp'. simpl.
    by eapply (Forall_lookup_1 _ _ _ _ Hexp). }
  intros j q Hj Hq. destruct (decide (j = pid)) as [->|Hne].
  - rewrite list_lookup_insert_eq in Hj by by eapply lookup_lt_Some.
    injection Hj as <-. unfold in_block in Hq.
    apply andb_true_iff in Hq as [Hk%bool_decide_eq_true Hpc'].
    rewrite Hp' in Hk. simpl in Hk.
    pose proof (Forall_lookup_1 _ _ _ _ Hexp Hpid Hk) as Hpos.
    destruct (p_pc p) as [| | |c| | |y|y] eqn:Hpc;
      try (destruct Hs as (_ & _ & Hs); first
             [ destruct Hs as [[_ Hs]|[_ Hs]]; rewrite Hs in Hpc'; done
             | rewrite Hs in Hpc'; try destruct (block i); done ]).
    destruct Hs as (Hst & _). rewrite Hp'. simpl. unfold hget.
    rewrite Hst, Hh. rewrite decide_False by lia. rewrite decide_True by done.
    rewrite Hk, lookup_insert_eq. eauto.
  - rewrite list_lookup_insert_ne in Hj by done.
    pose proof (Hin j q Hj Hq) as Hpres.
    assert (Hidne : p_id q ≠ p_id p).
    { intros Heq. apply Hne. eapply (NoDup_lookup _ _ _ _ Hnd).
      - by rewrite list_lookup_fmap, Hj.
      - by rewrite list_lookup_fmap, Hpid, Heq. }
    destruct Hcases as [->|[->|[_ ->]]]; [done| |].
    + cbn [exec_cmd]. rewrite hget_hdel_ne; [done|congruence].
    + unfold hget. rewrite Hh. destruct (decide (key (p_cfg p) = k)) as [Hk|Hk].
      * pose proof (Forall_lookup_1 _ _ _ _ Hexp Hpid Hk) as Hpos.
        rewrite decide_False by lia. by rewrite Hk, lookup_insert_ne.
      * by rewrite decide_False by naive_solver.
Qed.

Lemma guarded_action k a g :
  spares k a = true → guarded k g → guarded k (exec_action g a).
Proof.
  destruct a as [pid i|k' f'|k']; intros Hsp; [apply guarded_step|..];
    simpl in Hsp; apply negb_true_iff, bool_decide_eq_false in Hsp;
    intros (Hnd & Hexp & Hin).
  - split; [done|]. split; [done|]. intros j p Hj Hp. simpl in *.
    rewrite hget_hdel_ne; [by eapply Hin|congruence].
  - simpl. destruct (ttls (g_store g) !! k'); [|done].
    split; [done|]. split; [done|]. intros j p Hj Hp. simpl in *.
    unfold hget. rewrite hgetall_del_key, decide_False by done.
    by eapply Hin.
Qed.

(** X1. With pairwise distinct slot ids, one limit [L] and a positive slot
    expiry for the callers on limiter [k], and a record that starts with at
    most [L] entries: as long as no reaper deletion and no expiry hits the
    record of [k], at most [L] callers are in their scoped block at once. *)
Theorem at_most_limit_callers_in_block
    (k : string) (L : Z) (s0 : store)
    (calls : list (LimitConfiguration * float * string)) (sched : list action) :
  hlen k s0 <= L →
  Forall (λ c : LimitConfiguration * float * string,
            key c.1.1 = k → limit c.1.1 = L ∧ 0 < limit_expire c.1.1) calls →
  NoDup calls.*2 →
  Forall (λ a, spares k a = true) sched →
  let g := exec sched (init s0 calls) in
  Z.of_nat (length (filter (λ p, in_block k p = true) (g_procs g))) <= L.
Proof.
  intros Hs0 Hcalls Hnd Hsched g.
  assert (Hset : settled k L g).
  { apply settled_exec, settled_init; [done|].
    eapply Forall_impl; [exact Hcalls|]. naive_solver. }
  assert (Hg : guarded k g).
  { subst g. assert (H0 : guarded k (init s0 calls)).
    { split; [|split].
      - by rewrite init_ids.
      - simpl. apply Forall_map. eapply Forall_impl; [exact Hcalls|].
        naive_solver.
      - intros j p Hj Hp. apply list_elem_of_lookup_2, init_pcs in Hj.
        unfold in_block in Hp. by rewrite Hj, andb_false_r in Hp. }
    revert H0. generalize (init s0 calls). clear -Hsched.
    induction sched as [|a sched IH]; intros g Hg; [done|].
    apply Forall_cons in Hsched as [Ha Hsched].
    simpl. by apply IH, guarded_action. }
  destruct Hset as [Hsz _]. destruct Hg as (Hids & _ & Hpres).
  set (I := p_id <$> filter (λ p, in_block k p = true) (g_procs g)).
  assert (HI : NoDup I).
  { eapply sublist_NoDup; [exact Hids|]. apply fmap_sublist, sublist_filter. }
  assert (Hsub : (list_to_set I : gset string)
                 ⊆ dom (hgetall k (g_store g)) ∖ rollback_ids k (g_procs g)).
  { intros x Hx. apply elem_of_list_to_set in Hx.
    apply list_elem_of_fmap in Hx as (p & -> & Hp).
    apply list_elem_of_filter in Hp as [Hb Hp].
    apply list_elem_of_lookup in Hp as [j Hj].
    apply elem_of_difference. split.
    - apply elem_of_dom. by eapply Hpres.
    - rewrite elem_of_rollback_ids. intros (q & Hq & Hr & Heq).
      apply list_elem_of_lookup in Hq as [j' Hj'].
      assert (j' = j) as ->.
      { eapply (NoDup_lookup _ _ _ _ Hids).
        - by rewrite list_lookup_fmap, Hj'.
        - by rewrite list_lookup_fmap, Hj, Heq. }
      assert (q = p) as -> by congruence.
      unfold in_block in Hb. unfold in_rollback in Hr.
      destruct (p_pc p); by rewrite ?andb_false_r in *. }
  apply subseteq_size in Hsub. rewrite (size_list_to_set _ HI) in Hsub.
  subst I. rewrite length_fmap in Hsub. lia.
Qed.

(** ** One caller on its own *)

Lemma limit_run_cons (i : env) (envs : list env) (s : store) (p : proc) :
  limit_run (i :: envs) s p =
  ((limit_run envs (limit_step i s p).1.2 (limit_step i s p).1.1).1.1,
   (limit_run envs (limit_step i s p).1.2 (limit_step i s p).1.1).1.2,
   (limit_step i s p).2
   ++ (limit_run envs (limit_step i s p).1.2 (limit_step i s p).1.1).2).
Proof.
  simpl. destruct (limit_step i s p) as [[p1 s1] cs1]. simpl.
  by destruct (limit_run envs s1 p1) as [[p2 s2] cs2].
Qed.

Lemma pipeline_ttl k f v secs s :
  0 < secs →
  ttls (execute [HSET k f v; EXPIRE k secs; HLEN k] s).1 !! k = Some secs.
Proof.
  intros Hpos. rewrite !execute_cons. cbn [execute exec_cmd fst].
  rewrite expire_after_hset. destruct (Z.leb_spec secs 0); [lia|].
  simpl. apply lookup_insert_eq.
Qed.

(** The pre-check and the batch on a record with room, nobody interfering. *)
Lemma acquire_steps (i1 i2 : env) (s : store) (p : proc) :
  let cfg := p_cfg p in
  let r1 := limit_step i1 s p in
  let r2 := limit_step i2 r1.1.2 r1.1.1 in
  p_pc p = AtHlen → hlen (key cfg) s < limit cfg → 0 < limit_expire cfg →
  hget (key cfg) (p_id p) s = None →
  r1.2 = [HLEN (key cfg)] ∧
  r2.2 = [HSET (key cfg) (p_id p) (py_str (wall i2 + limit_expire cfg));
          EXPIRE (key cfg) (limit_expire cfg); HLEN (key cfg)] ∧
  r2.1.1 = set_pc p (AtYield (hlen (key cfg) s + 1)) ∧
  hgetall (key cfg) r2.1.2
  = <[p_id p := py_str (wall i2 + limit_expire cfg)]> (hgetall (key cfg) s) ∧
  ttls r2.1.2 !! key cfg = Some (limit_expire cfg) ∧
  (∀ k, k ≠ key cfg → hashes r2.1.2 !! k = hashes s !! k ∧
                       ttls r2.1.2 !! k = ttls s !! k).
Proof.
  intros cfg r1 r2 Hpc Hroom Hexp Habs.
  pose proof (limit_step_spec i1 s p) as [Hp1 Hs1]. cbv zeta in Hp1, Hs1.
  rewrite Hpc in Hs1. fold r1 cfg in Hp1, Hs1.
  destruct Hs1 as (Hst1 & Hcs1 & [[? _]|[_ Hpc1]]); [lia|].
  pose proof (limit_step_spec i2 r1.1.2 r1.1.1) as [Hp2 Hs2].
  cbv zeta in Hp2, Hs2. rewrite Hpc1 in Hs2. fold r2 in Hp2, Hs2.
  rewrite Hp1 in Hs2. cbn [set_pc p_cfg p_id] in Hs2. fold cfg in Hs2.
  rewrite Hst1 in Hs2. destruct Hs2 as (Hst2 & Hcs2 & Hcase).
  destruct (pipeline_spec s (key cfg) (p_id p)
              (py_str (wall i2 + limit_expire cfg)) (limit_expire cfg))
    as [Hh _]. rewrite <- Hst2 in Hh.
  assert (Hrec : hgetall (key cfg) r2.1.2
                 = <[p_id p := py_str (wall i2 + limit_expire cfg)]>
                     (hgetall (key cfg) s)).
  { rewrite (Hh (key cfg)). rewrite decide_False by lia.
    by rewrite decide_True. }
  assert (Hlen : hlen (key cfg) r2.1.2 = hlen (key cfg) s + 1).
  { unfold hlen. rewrite Hrec, map_size_insert_None by done. lia. }
  split; [done|]. split; [done|]. split.
  { rewrite Hp2, Hp1. unfold set_pc. simpl. f_equal.
    destruct Hcase as [[? _]|[_ ->]]; [lia|]. by rewrite Hlen. }
  split; [done|]. split.
  { rewrite Hst2. by apply pipeline_ttl. }
  intros k Hk. rewrite Hst2. apply execute_other. by repeat constructor.
Qed.

(** X8. A caller that finds room in the record (fewer entries than the
    limit), with a positive slot expiry and its id not in the record, gets
    its slot at the first attempt when nobody interferes: after the read and
    the batch it is at the yield with the old length plus one, its id is in
    the record with the expiry value, and the record has the time-to-live. *)
Theorem acquires_at_first_attempt_when_room
    (i1 i2 : env) (s : store) (p : proc) :
  let cfg := p_cfg p in
  let r := limit_run [i1; i2] s p in
  p_pc p = AtHlen → hlen (key cfg) s < limit cfg → 0 < limit_expire cfg →
  hget (key cfg) (p_id p) s = None →
  r.1.1 = set_pc p (AtYield (hlen (key cfg) s + 1)) ∧
  hgetall (key cfg) r.1.2
  = <[p_id p := py_str (wall i2 + limit_expire cfg)]> (hgetall (key cfg) s) ∧
  ttls r.1.2 !! key cfg = Some (limit_expire cfg) ∧
  r.2 = [HLEN (key cfg);
         HSET (key cfg) (p_id p) (py_str (wall i2 + limit_expire cfg));
         EXPIRE (key cfg) (limit_expire cfg); HLEN (key cfg)].
Proof.
  intros cfg r Hpc Hroom Hexp Habs.
  destruct (acquire_steps i1 i2 s p Hpc Hroom Hexp Habs)
    as (Hc1 & Hc2 & Hp2 & Hrec & Httl & _).
  subst r. rewrite !limit_run_cons. cbn [limit_run fst snd].
  rewrite Hc1, Hc2, app_nil_r. done.
Qed.

(** X9. Acquire, run the block, release: on a record with room and nobody
    interfering, whether the block returns or raises, the generator finishes
    with the block's outcome and the record of the limiter is exactly what it
    was before the call, as is every other key. *)
Theorem acquire_then_release_restores_record
    (i1 i2 i3 i4 : env) (s : store) (p : proc) :
  let cfg := p_cfg p in
  let r := limit_run [i1; i2; i3; i4] s p in
  p_pc p = AtHlen → hlen (key cfg) s < limit cfg → 0 < limit_expire cfg →
  hget (key cfg) (p_id p) s = None →
  p_pc r.1.1 = Exited (match block i3 with
                       | Returns => Completed
                       | Raises e => Raised (Public e)
                       end) ∧
  hgetall (key cfg) r.1.2 = hgetall (key cfg) s ∧
  (∀ k, k ≠ key cfg → hashes r.1.2 !! k = hashes s !! k ∧
                       ttls r.1.2 !! k = ttls s !! k).
Proof.
  intros cfg r Hpc Hroom Hexp Habs. subst cfg.
  destruct (acquire_steps i1 i2 s p Hpc Hroom Hexp Habs)
    as (_ & _ & Hp2 & Hrec & _ & Hoth).
  subst r. rewrite !limit_run_cons. cbn [limit_run fst snd].
  set (r2 := limit_step i2 (limit_step i1 s p).1.2 (limit_step i1 s p).1.1) in *.
  pose proof (limit_step_spec i3 r2.1.2 r2.1.1) as [Hp3 Hs3].
  cbv zeta in Hp3, Hs3.
  assert (Hpc2 : p_pc r2.1.1 = AtYield (hlen (key (p_cfg p)) s + 1)) by by rewrite Hp2.
  rewrite Hpc2 in Hs3.
  set (r3 := limit_step i3 r2.1.2 r2.1.1) in *.
  destruct Hs3 as (Hst3 & _ & Hpc3).
  set (x := match block i3 with
            | Returns => Completed
            | Raises e => Raised (Public e)
            end).
  assert (Hpc3' : p_pc r3.1.1 = AtFinally x).
  { rewrite Hpc3. subst x. by destruct (block i3). }
  pose proof (limit_step_spec i4 r3.1.2 r3.1.1) as [_ Hs4].
  cbv zeta in Hs4. rewrite Hpc3' in Hs4.
  destruct Hs4 as (Hst4 & _ & Hpc4).
  assert (Hcfg3 : p_cfg r3.1.1 = p_cfg p ∧ p_id r3.1.1 = p_id p).
  { rewrite Hp3, Hp2. done. }
  destruct Hcfg3 as [Hc3 Hi3].
  split; [done|]. rewrite Hst4, Hc3, Hi3, Hst3. split.
  - rewrite hgetall_hdel, decide_True by done. rewrite Hrec.
    by apply delete_insert_id.
  - intros k Hk. destruct (Hoth k Hk) as [<- <-].
    apply (exec_cmd_other (HDEL (key (p_cfg p)) (p_id p))). done.
Qed.

Lemma waiting_step (i : env) (s : store) (p : proc) :
  let cfg := p_cfg p in
  waiting p → limit cfg <= hlen (key cfg) s → hget (key cfg) (p_id p) s = None →
  waiting (limit_step i s p).1.1 ∧ (limit_step i s p).1.2 = s ∧
  Forall (λ c, c = HLEN (key cfg) ∨ c = HDEL (key cfg) (p_id p))
    (limit_step i s p).2.
Proof.
  intros cfg Hw Hfull Habs.
  pose proof (limit_step_spec i s p) as [Hp' Hs]. cbv zeta in Hp', Hs.
  fold cfg in Hs. unfold waiting in *. rewrite Hp'. cbn [p_pc set_pc p_cfg].
  fold cfg. destruct (p_pc p) as [| | |c| | |y|y] eqn:Hpc; try done.
  - destruct Hs as (-> & -> & [[_ ->]|[? _]]); [|lia].
    split; [done|]. split; [done|]. by repeat constructor.
  - destruct Hs as (-> & -> & [[_ ->]|[_ ->]]); split; try done.
  - destruct Hs as (-> & -> & ->). done.
  - destruct Hs as (-> & -> & ->). rewrite (hdel_absent _ _ _ Habs).
    split; [done|]. split; [done|]. constructor; [by right|constructor].
  - destruct Hs as (-> & -> & ->). done.
Qed.

(** X10. While the record is full and nobody interferes, a caller whose id is
    not in the record never gets past the pre-check however long it runs: it
    stays in the loop or leaves with the timeout error, the store stays
    exactly as it was, and all it ever sends is the read of the length and
    the final delete of its own (absent) id. *)
Theorem full_record_is_left_untouched
    (envs : list env) (s : store) (p : proc) :
  let cfg := p_cfg p in
  let r := limit_run envs s p in
  p_pc p = AtHlen → limit cfg <= hlen (key cfg) s →
  hget (key cfg) (p_id p) s = None →
  waiting r.1.1 ∧ r.1.2 = s ∧
  Forall (λ c, c = HLEN (key cfg) ∨ c = HDEL (key cfg) (p_id p)) r.2.
Proof.
  intros cfg r Hpc Hfull Habs.
  assert (Hw : waiting p) by (unfold waiting; by rewrite Hpc).
  subst r. clear Hpc. revert p cfg Hw Hfull Habs.
  induction envs as [|i envs IH]; intros p cfg Hw Hfull Habs.
  { simpl. done. }
  rewrite limit_run_cons. cbn [fst snd].
  destruct (waiting_step i s p Hw Hfull Habs) as (Hw1 & Hs1 & Hc1).
  pose proof (limit_step_locals i s p) as (Hcfg & Hid & _).
  rewrite Hs1.
  destruct (IH (limit_step i s p).1.1) as (Hw2 & Hs2 & Hc2);
    [done|by rewrite Hcfg|by rewrite Hcfg, Hid|].
  rewrite Hcfg, Hid in Hc2. split; [done|]. split; [done|].
  apply Forall_app. done.
Qed.

(** ** More on the reaper *)

Lemma clean_fold_noop (py_int : string → option Z) (k : string) (now : Z)
    (scan : list (string * string)) (acc : store * Z) :
  Forall (λ e, clean_lock py_int now e.2 = false) scan →
  fold_left (clean_body py_int k now) scan acc = acc.
Proof.
  revert acc. induction scan as [|e scan IH]; intros acc Hall; [done|].
  apply Forall_cons in Hall as [He Hall]. simpl.
  unfold clean_body at 2. rewrite He. by apply IH.
Qed.

(** X5. Running the reaper again at the same time, on the store it has just
    cleaned, deletes nothing: it returns 0 and the store is unchanged. *)
Theorem limit_clean_twice_is_once
    (py_int : string → option Z) (cfg : LimitConfiguration) (now : Z) (s : store) :
  limit_clean py_int cfg now (limit_clean py_int cfg now s).1
  = ((limit_clean py_int cfg now s).1, 0).
Proof.
  destruct (limit_clean_spec py_int (key cfg) now cfg s eq_refl) as (H1 & _).
  unfold limit_clean at 1. unfold limit_clean_scan, hscan.
  apply clean_fold_noop. apply Forall_forall. intros [f v] Hin.
  apply elem_of_map_to_list in Hin. rewrite H1 in Hin.
  by apply map_lookup_filter_Some in Hin as [_ Hv].
Qed.

(** X6. Whatever entries the scan yields (in any order, repeated, or no
    longer in the record) the loop of [limit_clean] deletes exactly the
    fields that the scan showed with a stale or unparsable expiry, leaves
    every other entry and every other record alone, and returns the number
    of entries by which the record shrank. *)
Theorem limit_clean_scan_counts_what_it_removed
    (py_int : string → option Z) (k : string) (now : Z)
    (scan : list (string * string)) (s : store) :
  let r := limit_clean_scan py_int k now scan s in
  (∀ f, hget k f r.1 =
        if bool_decide (Exists (λ e, e.1 = f ∧ clean_lock py_int now e.2 = true) scan)
        then None else hget k f s) ∧
  (∀ k', k' ≠ k → hgetall k' r.1 = hgetall k' s) ∧
  r.2 = hlen k s - hlen k r.1 ∧
  0 <= r.2 <= hlen k s.
Proof.
  intros r. subst r. unfold limit_clean_scan.
  destruct (clean_scan_fold py_int k now scan s 0) as (H1 & H2 & H3).
  split; [done|]. split; [done|]. split; [lia|].
  pose proof (hlen_nonneg k (fold_left (clean_body py_int k now) scan (s, 0)).1).
  split; [|lia]. rewrite H3.
  assert (size (hgetall k (fold_left (clean_body py_int k now) scan (s, 0%Z)).1)
          <= size (hgetall k s))%nat; [|unfold hlen; lia].
  apply map_subseteq_size, map_subseteq_spec. intros f v Hf.
  specialize (H1 f). unfold hget in H1. rewrite H1 in Hf.
  by case_bool_decide.
Qed.

(** The decimal reader reads back what [py_str] writes. *)
Lemma dec_int_py_str (z : Z) : dec_int (py_str z) = Some z.
Proof.
  unfold dec_int, py_str. rewrite NilZero.isi.
  - simpl. by rewrite DecimalZ.of_to.
  - destruct z; simpl; try discriminate.
    intros [= H]. by apply DecimalPos.Unsigned.to_uint_nonnil in H.
  - destruct z; simpl; try discriminate.
    intros [= H]. by apply DecimalPos.Unsigned.to_uint_nonnil in H.
Qed.

(** X7. The slot that the batch of lines 69-75 writes at wall-clock time [w]
    with a positive slot expiry [e] carries the value [str(w + e)]; if [int]
    reads that value back, a reaper run on the resulting store at time [now]
    deletes the slot exactly when [w + e <= now] and otherwise leaves it as
    it is. *)
Theorem fresh_slot_is_reaped_from_its_expiry_on
    (py_int : string → option Z) (i : env) (s : store) (p : proc) (now : Z) :
  let cfg := p_cfg p in
  let expiry := wall i + limit_expire cfg in
  let s1 := (limit_step i s p).1.2 in
  p_pc p = AtPipeline → 0 < limit_expire cfg →
  py_int (py_str expiry) = Some expiry →
  hget (key cfg) (p_id p) s1 = Some (py_str expiry) ∧
  hget (key cfg) (p_id p) (limit_clean py_int cfg now s1).1
  = if expiry <=? now then None else Some (py_str expiry).
Proof.
  intros cfg expiry s1 Hpc Hexp Hint.
  pose proof (limit_step_spec i s p) as [_ Hs]. cbv zeta in Hs.
  rewrite Hpc in Hs. fold cfg s1 in Hs. destruct Hs as (Hst & _).
  destruct (pipeline_spec s (key cfg) (p_id p)
              (py_str (wall i + limit_expire cfg)) (limit_expire cfg))
    as [Hh _]. rewrite <- Hst in Hh.
  assert (H1 : hget (key cfg) (p_id p) s1 = Some (py_str expiry)).
  { unfold hget. rewrite (Hh (key cfg)). rewrite decide_False by lia.
    rewrite decide_True by done. apply lookup_insert_eq. }
  split; [done|].
  destruct (limit_clean_spec py_int (key cfg) now cfg s1 eq_refl) as (Hc & _).
  unfold hget in *. rewrite Hc.
  assert (Hcl : clean_lock py_int now (py_str expiry) = (expiry <=? now)).
  { unfold clean_lock. rewrite Hint. apply Z.geb_leb. }
  destruct (expiry <=? now).
  - apply map_lookup_filter_None. right. intros v Hv. simpl. congruence.
  - by apply map_lookup_filter_Some.
Qed.

(** X13. One rejected attempt on a full record, nobody interfering, by a
    caller whose id is not in the record: if the elapsed time that line 86
    computes exceeds the timeout (line 90), the call ends with the timeout
    error after having
    sent the read of the length and the delete of its id, and the store is
    as it was; otherwise the caller is back at the read of the length after
    having sent only the read. *)
Theorem one_rejected_attempt_times_out_or_retries
    (i1 i2 i3 : env) (s : store) (p : proc) :
  let cfg := p_cfg p in
  let r := limit_run [i1; i2; i3] s p in
  p_pc p = AtHlen → limit cfg <= hlen (key cfg) s →
  hget (key cfg) (p_id p) s = None →
  (timed_out i2 p = true →
   r = (set_pc p (Exited (Raised (Public
          (ConcurrencyLimitExceededException (limit cfg) (limit_timeout cfg))))),
        s, [HLEN (key cfg); HDEL (key cfg) (p_id p)])) ∧
  (timed_out i2 p = false →
   r = (p, s, [HLEN (key cfg)])).
Proof.
  intros cfg r Hpc Hfull Habs. subst r cfg.
  rewrite !limit_run_cons. cbn [limit_run fst snd].
  pose proof (limit_step_spec i1 s p) as [Hp1 Hs1]. cbv zeta in Hp1, Hs1.
  rewrite Hpc in Hs1. set (r1 := limit_step i1 s p) in *.
  destruct Hs1 as (Hst1 & Hcs1 & [[_ Hpc1]|[? _]]); [|lia].
  pose proof (limit_step_spec i2 r1.1.2 r1.1.1) as [Hp2 Hs2].
  cbv zeta in Hp2, Hs2. rewrite Hpc1 in Hs2.
  set (r2 := limit_step i2 r1.1.2 r1.1.1) in *.
  destruct Hs2 as (Hst2 & Hcs2 & Hcase).
  assert (Hl1 : p_cfg r1.1.1 = p_cfg p ∧ p_id r1.1.1 = p_id p ∧
                p_start r1.1.1 = p_start p) by by rewrite Hp1.
  destruct Hl1 as (Hc1 & Hi1 & Hb1).
  assert (Hto : timed_out i2 r1.1.1 = timed_out i2 p).
  { unfold timed_out, elapsed. by rewrite Hc1, Hb1. }
  rewrite Hto, Hc1 in Hcase.
  assert (Hl2 : p_cfg r2.1.1 = p_cfg p ∧ p_id r2.1.1 = p_id p).
  { rewrite Hp2. simpl. done. }
  destruct Hl2 as (Hc2 & Hi2).
  pose proof (limit_step_spec i3 r2.1.2 r2.1.1) as [Hp3 Hs3].
  cbv zeta in Hp3, Hs3. set (r3 := limit_step i3 r2.1.2 r2.1.1) in *.
  rewrite Hc2, Hi2, Hst2, Hst1 in Hs3.
  split; intros Ht.
  - destruct Hcase as [[_ Hpc2]|[Hle _]];
      [|congruence].
    rewrite Hpc2 in Hs3. destruct Hs3 as (Hst3 & Hcs3 & Hpc3).
    rewrite (hdel_absent _ _ _ Habs) in Hst3.
    rewrite Hst3, Hcs1, Hcs2, Hcs3, Hp3, Hpc3, Hp2, Hp1. done.
  - destruct Hcase as [[Hlt _]|[_ Hpc2]];
      [congruence|].
    rewrite Hpc2 in Hs3. destruct Hs3 as (Hst3 & Hcs3 & Hpc3).
    rewrite Hst3, Hcs1, Hcs2, Hcs3, Hp3, Hpc3, Hp2, Hp1.
    unfold set_pc. simpl. rewrite <- Hpc. by destruct p.
Qed.

(** ** The extra properties on the worked execution *)

(** A slot reaped while its block is running lets a second caller in: with
    limit 1 both callers are in their block. *)
Example ex_reaped_slot_admits_second_caller :
  p_pc <$> g_procs (exec ex_sched_reaped (init Redis.empty ex_calls))
  = [AtYield 1; AtYield 1].
Proof. vm_compute. reflexivity. Qed.

Lemma at_most_limit_callers_in_block_witness :
  Z.of_nat (length (filter (λ p, in_block "jobs" p = true)
                      (g_procs (exec ex_sched (init Redis.empty ex_calls))))) <= 1.
Proof.
  apply (at_most_limit_callers_in_block "jobs" 1 Redis.empty ex_calls ex_sched).
  - vm_compute. discriminate.
  - repeat constructor.
  - apply (bool_decide_unpack _). vm_compute. exact I.
  - repeat constructor.
Defined.

Lemma records_always_carry_a_ttl_witness :
  all_keys_expire (g_store (exec ex_sched (init Redis.empty ex_calls))).
Proof.
  apply records_always_carry_a_ttl.
  intros k [h Hh]. simpl in Hh. rewrite lookup_empty in Hh. discriminate.
Defined.

Lemma private_exception_never_escapes_witness :
  AtYield 1 ≠ AtFinally (Raised LockAcquireException) ∧
  AtYield 1 ≠ Exited (Raised LockAcquireException).
Proof.
  apply (private_exception_never_escapes Redis.empty ex_calls ex_sched
           (Proc ex_cfg 0 "a" (AtYield 1))).
  vm_compute. left.
Defined.

Lemma fresh_slot_is_reaped_from_its_expiry_on_witness :
  hget "jobs" "a"
    (limit_clean dec_int ex_cfg 1029
       (limit_step (ex_env 0 Returns) Redis.empty
          (Proc ex_cfg 0 "a" AtPipeline)).1.2).1 = Some "1030" ∧
  hget "jobs" "a"
    (limit_clean dec_int ex_cfg 1030
       (limit_step (ex_env 0 Returns) Redis.empty
          (Proc ex_cfg 0 "a" AtPipeline)).1.2).1 = None.
Proof.
  split.
  - apply (fresh_slot_is_reaped_from_its_expiry_on dec_int (ex_env 0 Returns)
             Redis.empty (Proc ex_cfg 0 "a" AtPipeline) 1029);
      [reflexivity|reflexivity|reflexivity].
  - apply (fresh_slot_is_reaped_from_its_expiry_on dec_int (ex_env 0 Returns)
             Redis.empty (Proc ex_cfg 0 "a" AtPipeline) 1030);
      [reflexivity|reflexivity|reflexivity].
Defined.

Lemma acquires_at_first_attempt_when_room_witness :
  (limit_run [ex_env 0 Returns; ex_env 0 Returns] Redis.empty
     (Proc ex_cfg 0 "a" AtHlen)).1.1 = Proc ex_cfg 0 "a" (AtYield 1).
Proof.
  apply (acquires_at_first_attempt_when_room (ex_env 0 Returns) (ex_env 0 Returns)
           Redis.empty (Proc ex_cfg 0 "a" AtHlen));
    [reflexivity|reflexivity|reflexivity|reflexivity].
Defined.

Lemma acquire_then_release_restores_record_witness :
  hgetall "jobs"
    (limit_run [ex_env 0 Returns; ex_env 0 Returns;
                ex_env 1 (Raises (BlockError "boom")); ex_env 1 Returns]
       Redis.empty (Proc ex_cfg 0 "a" AtHlen)).1.2
  = hgetall "jobs" Redis.empty.
Proof.
  apply (acquire_then_release_restores_record
           (ex_env 0 Returns) (ex_env 0 Returns)
           (ex_env 1 (Raises (BlockError "boom"))) (ex_env 1 Returns)
           Redis.empty (Proc ex_cfg 0 "a" AtHlen));
    [reflexivity|reflexivity|reflexivity|reflexivity].
Defined.

Lemma full_record_is_left_untouched_witness :
  (limit_run [ex_env 0 Returns; ex_env 1 Returns; ex_env 2 Returns;
              ex_env 3 Returns; ex_env 6 Returns; ex_env 6 Returns]
     ex_held (Proc ex_cfg 0 "a" AtHlen)).1.2 = ex_held.
Proof.
  apply (full_record_is_left_untouched
           [ex_env 0 Returns; ex_env 1 Returns; ex_env 2 Returns;
            ex_env 3 Returns; ex_env 6 Returns; ex_env 6 Returns]
           ex_held (Proc ex_cfg 0 "a" AtHlen));
    [reflexivity| |reflexivity].
  vm_compute. discriminate.
Defined.

Lemma one_rejected_attempt_times_out_or_retries_witness :
  limit_run [ex_env 6 Returns; ex_env 6 Returns; ex_env 6 Returns]
    ex_held (Proc ex_cfg 0 "a" AtHlen)
  = (Proc ex_cfg 0 "a" (Exited (Raised (Public
       (ConcurrencyLimitExceededException 1 5)))),
     ex_held, [HLEN "jobs"; HDEL "jobs" "a"]).
Proof.
  refine (proj1 (one_rejected_attempt_times_out_or_retries
                   (ex_env 6 Returns) (ex_env 6 Returns) (ex_env 6 Returns)
                   ex_held (Proc ex_cfg 0 "a" AtHlen) eq_refl _ eq_refl) _).
  - vm_compute. discriminate.
  - reflexivity.
Defined.
